(** * CategoryFeatureGenerator: category-map fitting and application

    A shallow embedding of
    [autogluon/utils/tabular/features/generators/category.py].

    The generator is a thin layer over pandas.  The pandas operations it
    calls are embedded first (categorical coercion, value counts, slicing,
    recoding against a list of categories), then the generator's methods,
    which run in a state-and-exception monad over the generator object
    and a heap of column objects, so that in-place recoding and copies
    are visible.

    The cells of a column are strings or NaN: columns that mix Python
    values of several types, which pandas cannot order, are not followed,
    and neither is a fit beyond the point where it takes integers for the
    categories of a column. *)

From Stdlib Require Import ZArith Lia.
From stdpp Require Import base list strings sorting.

(** ** Python's order on [str]

    [list.sort()] on strings and the sorting of inferred categories both
    compare strings lexicographically by code point. *)

Definition str_le (a b : string) : Prop := String.leb a b = true.

Global Instance str_le_dec : RelDecision str_le.
Proof. intros a b. unfold str_le. apply _. Defined.

(** [list.sort()] / [sorted] on a list of strings. *)
Definition sort_strings (l : list string) : list string := merge_sort str_le l.

(** ** Columns

    A cell is a string or NaN, the missing marker ([None]).  A column is
    either of dtype [object] or of dtype [category]; a categorical carries
    its ordered categories next to its cells. *)

Abbreviation cell := (option string).

Record Categorical := {
  categories : list string;
  values : list cell }.

Inductive Series :=
| ObjectSeries (data : list cell)
| CategorySeries (data : Categorical).

Definition series_values (s : Series) : list cell :=
  match s with
  | ObjectSeries vs => vs
  | CategorySeries c => values c
  end.

(** The invariant pandas maintains for a categorical: categories are
    unique and every cell that is not NaN is one of them. *)
Definition cell_among (categories : list string) (x : cell) : Prop :=
  match x with
  | Some v => v ∈ categories
  | None => True
  end.

Definition wf_categorical (c : Categorical) : Prop :=
  NoDup (categories c) ∧ Forall (cell_among (categories c)) (values c).

Definition wf_series (s : Series) : Prop :=
  match s with
  | ObjectSeries _ => True
  | CategorySeries c => wf_categorical c
  end.

Global Instance cell_among_dec categories x :
  Decision (cell_among categories x).
Proof. destruct x; simpl; apply _. Defined.

Global Instance wf_categorical_dec c : Decision (wf_categorical c).
Proof. unfold wf_categorical. apply _. Defined.

Global Instance wf_series_dec s : Decision (wf_series s).
Proof. destruct s; simpl; apply _. Defined.

(** Number of cells of a column holding [v]. *)
Definition frequency (v : string) (vs : list cell) : nat :=
  length (filter (λ c, c = Some v) vs).

(** Order of first occurrence of the values of a column. *)
Fixpoint first_occurrence (vs : list cell) : list string :=
  match vs with
  | [] => []
  | None :: vs => first_occurrence vs
  | Some v :: vs => v :: filter (λ w, w ≠ v) (first_occurrence vs)
  end.

(** ** pandas operations on one column *)

(** Categories inferred from data: the unique values that are not NaN,
    sorted (strings are orderable). *)
Definition inferred_categories (vs : list cell) : list string :=
  sort_strings (remove_dups (omap id vs)).

(** [Series.astype('category')]: an object column gets inferred
    categories, a categorical column keeps its own. *)
Definition astype_category (s : Series) : Categorical :=
  match s with
  | ObjectSeries vs => {| categories := inferred_categories vs; values := vs |}
  | CategorySeries c => c
  end.

(** Recoding against new categories ([astype(CategoricalDtype(...))],
    [cat.set_categories]): a cell whose value is not among the new
    categories becomes NaN. *)
Definition recode_cell (new_categories : list string) (x : cell) : cell :=
  match x with
  | Some v => if decide (v ∈ new_categories) then Some v else None
  | None => None
  end.

Definition set_categories (new_categories : list string) (c : Categorical)
  : Categorical :=
  {| categories := new_categories;
     values := recode_cell new_categories <$> values c |}.

(** Two categorical dtypes that are not ordered are equal when they hold
    the same categories, in whatever order. *)
Definition same_categories (l1 l2 : list string) : Prop := l1 ⊆ l2 ∧ l2 ⊆ l1.

Global Instance same_categories_dec l1 l2 : Decision (same_categories l1 l2).
Proof. unfold same_categories. apply _. Defined.

(** [Categorical.astype(dtype)] for a categorical dtype: the column is
    returned as it is when the dtype equals its own, so a dtype that only
    reorders the categories changes nothing; otherwise the column is
    recoded against the categories of the dtype. *)
Definition astype_dtype (dtype : list string) (c : Categorical) : Categorical :=
  if decide (same_categories dtype (categories c)) then c
  else set_categories dtype c.

(** [Categorical.value_counts]: one count per category, in category
    order, categories that do not occur included. *)
Definition category_counts (c : Categorical) : list (string * nat) :=
  (λ v, (v, frequency v (values c))) <$> categories c.

(** Positional slice [s[start:]] with Python's treatment of a negative or
    too large start. *)
Definition slice_from {A} (start : Z) (l : list A) : list A :=
  let len := Z.of_nat (length l) in
  let start := if (start <? 0)%Z then Z.max 0 (start + len)
               else Z.min start len in
  drop (Z.to_nat start) l.

(** ** [Series.sort_values]

    The generator calls [sort_values] with the default [kind], pandas'
    "quicksort", for which the documentation promises the order of the
    result and nothing about ties.  The sort is therefore an interface:
    an algorithm together with what every [kind] guarantees. *)

Definition count_order (ascending : bool) (p q : string * nat) : Prop :=
  if ascending then (p.2 ≤ q.2)%nat else (q.2 ≤ p.2)%nat.

Class SortValues := {
  sort_values : bool → list (string * nat) → list (string * nat);
  sort_values_perm : ∀ ascending s, sort_values ascending s ≡ₚ s;
  sort_values_sorted : ∀ ascending s,
    StronglySorted (count_order ascending) (sort_values ascending s) }.

(** [Series.value_counts()] of a categorical column: the counts per
    category, sorted by decreasing count. *)
Definition value_counts `{SortValues} (c : Categorical) : list (string * nat) :=
  sort_values false (category_counts c).

(** ** Python dictionaries

    A [dict] keeps its keys in insertion order; assigning to a key that is
    present replaces its value in place. *)

Abbreviation dict V := (list (string * V)).

Definition dict_keys {V} (d : dict V) : list string := d.*1.

Fixpoint dict_get {V} (d : dict V) (k : string) : option V :=
  match d with
  | [] => None
  | (k', v) :: d => if decide (k' = k) then Some v else dict_get d k
  end.

Fixpoint dict_set {V} (d : dict V) (k : string) (v : V) : dict V :=
  match d with
  | [] => [(k, v)]
  | (k', v') :: d =>
      if decide (k' = k) then (k, v) :: d else (k', v') :: dict_set d k v
  end.

Fixpoint dict_pop {V} (d : dict V) (k : string) : dict V :=
  match d with
  | [] => []
  | (k', v') :: d => if decide (k' = k) then d else (k', v') :: dict_pop d k
  end.

(** ** The generator object *)

(** The exceptions the methods can meet.  Two of them are not Python
    exceptions.  [InvalidReference] stands for an address that is not in
    the heap, which a Python program cannot hold.  [IntegerCategories]
    stands for a fit that goes on with integers as the categories of a
    column (the counts that are read when the column is labelled [index]);
    the categories of the columns followed here are strings, and the fit is
    not followed beyond that point. *)
Inductive Exception :=
| ValueError (msg : string)
| KeyError (key : string)
| AttributeError (msg : string)
| InvalidReference (address : nat)
| IntegerCategories (categories : list nat).

Inductive PostGenerator :=
| CategoryMemoryMinimizeFeatureGenerator (inplace : bool)
| OtherGenerator (name : string).

(** Modelled from the spec: the feature metadata of the pipeline framework,
    which is not part of the sources.  Column names are grouped by raw type
    and by special tag; a group that was never filled reads as empty. *)
Record FeatureMetadata := {
  type_group_map_raw : dict (list string);
  type_group_map_special : dict (list string) }.

Definition group {V} (d : dict (list V)) (k : string) : list V :=
  default [] (dict_get d k).

(** Modelled from the spec: the attributes the base class
    [IdentityFeatureGenerator] sets up and this class reads. *)
Record IdentityFeatureGenerator := {
  base_post_generators : list PostGenerator;
  base_features_in : list string;
  base_feature_metadata_in : FeatureMetadata }.

Record CategoryFeatureGenerator := {
  _stateful_categories : bool;
  cat_order : string;
  _minimum_cat_count : option Z;
  _maximum_num_cat : option Z;
  category_map : option (dict (list string));
  post_generators : list PostGenerator;
  features_in : list string;
  feature_metadata_in : FeatureMetadata }.

Definition allowed_cat_order : list string :=
  ["original"; "alphanumeric"; "count"].

(** [__init__]; [super_init] stands for what the call of the base
    class's initialiser with the remaining keyword arguments has set up. *)
Definition __init__ (super_init : IdentityFeatureGenerator)
    (stateful_categories minimize_memory : bool) (cat_order : string)
    (minimum_cat_count maximum_num_cat : option Z)
  : Exception + CategoryFeatureGenerator :=
  let minimum_cat_count :=
    match minimum_cat_count with
    | Some k => if (k <=? 1)%Z then None else Some k
    | None => None
    end in
  if decide (cat_order ∉ allowed_cat_order) then
    inl (ValueError
      ("cat_order must be one of ['original', 'alphanumeric', 'count'], but was: "
        +:+ cat_order))
  else
    inr {| _stateful_categories := stateful_categories;
           cat_order := cat_order;
           _minimum_cat_count := minimum_cat_count;
           _maximum_num_cat := maximum_num_cat;
           category_map := None;
           post_generators :=
             if minimize_memory
             then CategoryMemoryMinimizeFeatureGenerator true
                    :: base_post_generators super_init
             else base_post_generators super_init;
           features_in := base_features_in super_init;
           feature_metadata_in := base_feature_metadata_in super_init |}.

(** [_infer_features_in] *)
Definition _infer_features_in (self : CategoryFeatureGenerator) : list string :=
  let object_features :=
    group (type_group_map_raw (feature_metadata_in self)) "object"
    ++ group (type_group_map_raw (feature_metadata_in self)) "category" in
  let datetime_as_object_features :=
    group (type_group_map_special (feature_metadata_in self))
      "datetime_as_object" in
  filter (λ feature, feature ∉ datetime_as_object_features) object_features.

(** ** Fitting one column: the body of the loop of [_generate_category_map] *)

Section column.
Context `{SortValues}.
Variable self : CategoryFeatureGenerator.

(** The test that selects the frequency-ranking branch. *)
Definition ranks : bool :=
  bool_decide (cat_order self = "count")
  || bool_decide (_minimum_cat_count self ≠ None)
  || bool_decide (_maximum_num_cat self ≠ None).

Definition at_least (k : option Z) (rank : list (string * nat))
  : list (string * nat) :=
  match k with
  | Some k => filter (λ p, (k ≤ Z.of_nat p.2)%Z) rank
  | None => rank
  end.

Definition at_most (n : option Z) (rank : list (string * nat))
  : list (string * nat) :=
  match n with
  | Some n => slice_from (- n) rank
  | None => rank
  end.

(** The counts sorted upwards, before any filtering. *)
Definition ranking (X_column : Categorical) : list (string * nat) :=
  sort_values true (value_counts X_column).

(** [rank] when it is reset to a frame: counts sorted upwards, filtered
    by the minimum count, cut to the maximum number of categories. *)
Definition rank (X_column : Categorical) : list (string * nat) :=
  let rank := ranking X_column in
  let rank := at_least (_minimum_cat_count self) rank in
  at_most (_maximum_num_cat self) rank.

(** [rank.reset_index()] puts the ranked values in a column labelled
    [index], and [list(rank['index'].values)] reads them; [category_list]
    is the list on which the branch goes on in that case. *)
Definition category_list (X_column : Categorical) : list string :=
  let category_list := (rank X_column).*1 in
  if decide (1 < length category_list) then
    if decide (cat_order self = "original") then
      let original_cat_order := categories X_column in
      filter (λ cat, cat ∈ category_list) original_cat_order
    else if decide (cat_order self = "alphanumeric") then
      sort_strings category_list
    else category_list
  else category_list.

(** When the counted column is itself labelled [index], the counts keep
    that label, [reset_index] puts the ranked values under [level_0], and
    [list(rank['index'].values)] reads the counts.  No category, a string,
    is among them, so the comprehension of the original order is empty;
    the other orders keep the counts. *)
Definition count_list (X_column : Categorical) : list string + list nat :=
  let category_list := (rank X_column).*2 in
  if decide (1 < length category_list) then
    if decide (cat_order self = "original") then inl []
    else if decide (cat_order self = "alphanumeric") then
      inr (merge_sort le category_list)
    else inr category_list
  else inr category_list.

(** The categories the column is recoded against, if it is recoded (and
    is not labelled [index] where the counts are ranked). *)
Definition new_categories (X_column : Categorical) : option (list string) :=
  if ranks then Some (category_list X_column)
  else if decide (cat_order self = "alphanumeric") then
    Some (sort_strings (categories X_column))
  else None.

(** The column after the loop body. *)
Definition recoded (X_column : Categorical) : Categorical :=
  match new_categories X_column with
  | Some category_list => astype_dtype category_list X_column
  | None => X_column
  end.

(** The vocabulary recorded for the column: its categories after the
    loop body. *)
Definition vocabulary (X_column : Categorical) : list string :=
  categories (recoded X_column).
End column.

(** ** Two sorting algorithms

    [stable_kind] is an insertion sort, which keeps ties in their order
    (what [kind='mergesort'] promises, and what numpy's quicksort does on
    the short arrays it sorts by insertion); [quicksort_kind] is a
    quicksort that puts the values equal to the pivot before it (numpy's
    quicksort partitions arrays of more than seventeen elements, and its
    partition moves equal values too).  In both, as in pandas, a
    descending sort is the ascending one read backwards. *)

Fixpoint insert_count (p : string * nat) (s : list (string * nat))
  : list (string * nat) :=
  match s with
  | [] => [p]
  | q :: s' => if decide (p.2 ≤ q.2)%nat then p :: s else q :: insert_count p s'
  end.

Definition insertion_sort (s : list (string * nat)) : list (string * nat) :=
  foldr insert_count [] s.

Fixpoint quicksort_fuel (fuel : nat) (s : list (string * nat))
  : list (string * nat) :=
  match fuel, s with
  | S fuel, p :: s' =>
      quicksort_fuel fuel (filter (λ q, (q.2 ≤ p.2)%nat) s')
      ++ p :: quicksort_fuel fuel (filter (λ q, ¬ (q.2 ≤ p.2)%nat) s')
  | _, _ => []
  end.

Definition quicksort (s : list (string * nat)) : list (string * nat) :=
  quicksort_fuel (length s) s.

Definition directed (sort : list (string * nat) → list (string * nat))
    (ascending : bool) (s : list (string * nat)) : list (string * nat) :=
  if ascending then sort s else reverse (sort s).

(** ** The heap of column objects and the monad of the methods

    A frame refers to its columns by address, so two frames can share a
    column object and an in-place change of one shows in the other.  A
    method takes the generator and the heap and gives back a value or an
    exception, together with the generator and the heap it leaves. *)

Record DataFrame := {
  index : list Z;
  columns : list (string * nat) }.

Record State := {
  self : CategoryFeatureGenerator;
  heap : list Series }.

Definition M (A : Type) : Type := State → (Exception + A) * State.

Definition ret {A} (a : A) : M A := λ st, (inr a, st).

Definition raise {A} (e : Exception) : M A := λ st, (inl e, st).

Definition bind {A B} (k : A → M B) (m : M A) : M B :=
  λ st, match m st with
        | (inr a, st') => k a st'
        | (inl e, st') => (inl e, st')
        end.

Global Instance M_ret : MRet M := @ret.
Global Instance M_bind : MBind M := @bind.

Fixpoint foldM {A B} (f : A → B → M A) (a : A) (l : list B) : M A :=
  match l with
  | [] => ret a
  | b :: l => a' ← f a b; foldM f a' l
  end.

Fixpoint mapM {A B} (f : A → M B) (l : list A) : M (list B) :=
  match l with
  | [] => ret []
  | a :: l => b ← f a; bs ← mapM f l; ret (b :: bs)
  end.

Definition get_self : M CategoryFeatureGenerator := λ st, (inr (self st), st).

Definition set_category_map (m : option (dict (list string))) : M unit :=
  λ st,
    let g := self st in
    (inr (),
     {| self := {| _stateful_categories := _stateful_categories g;
                   cat_order := cat_order g;
                   _minimum_cat_count := _minimum_cat_count g;
                   _maximum_num_cat := _maximum_num_cat g;
                   category_map := m;
                   post_generators := post_generators g;
                   features_in := features_in g;
                   feature_metadata_in := feature_metadata_in g |};
        heap := heap st |}).

(** A new column object, at the next free address. *)
Definition new_series (s : Series) : M nat :=
  λ st, (inr (length (heap st)),
         {| self := self st; heap := heap st ++ [s] |}).

Definition load (address : nat) : M Series :=
  λ st, match heap st !! address with
        | Some s => (inr s, st)
        | None => (inl (InvalidReference address), st)
        end.

Definition store (address : nat) (s : Series) : M unit :=
  λ st, (inr (), {| self := self st; heap := <[address := s]> (heap st) |}).

(** The [.cat] accessor exists for categorical columns only. *)
Definition cat (address : nat) : M Categorical :=
  s ← load address;
  match s with
  | CategorySeries c => ret c
  | ObjectSeries _ =>
      raise (AttributeError "Can only use .cat accessor with a 'category' dtype")
  end.

(** [CategoricalDtype(categories=...)] refuses categories that repeat. *)
Definition CategoricalDtype (categories : list string) : M (list string) :=
  if decide (NoDup categories) then ret categories
  else raise (ValueError "Categorical categories must be unique").

(** [X[column]] *)
Definition getitem (X : DataFrame) (column : string) : M nat :=
  match dict_get (columns X) column with
  | Some address => ret address
  | None => raise (KeyError column)
  end.

(** [X[column] = series] on a frame held in a local variable. *)
Definition setitem (X : DataFrame) (column : string) (address : nat)
  : DataFrame :=
  {| index := index X; columns := dict_set (columns X) column address |}.

(** A new column object for each column of a frame, holding the image of
    the old one under [f]. *)
Definition copy_columns (f : Series → Series) (cols : dict nat)
  : M (dict nat) :=
  mapM (λ '(column, address),
          s ← load address;
          a ← new_series (f s);
          ret (column, a)) cols.

(** [X.astype('category')]: a new frame of new categorical columns. *)
Definition DataFrame_astype_category (X : DataFrame) : M DataFrame :=
  cols ← copy_columns (λ s, CategorySeries (astype_category s)) (columns X);
  ret {| index := index X; columns := cols |}.

(** [copy.deepcopy(X)] *)
Definition deepcopy (X : DataFrame) : M DataFrame :=
  cols ← copy_columns id (columns X);
  ret {| index := index X; columns := cols |}.

(** [CategoricalDtype(categories=...)] on a list of counts.  Without
    counts the dtype has no category; otherwise its categories are
    integers. *)
Definition CategoricalDtype_counts (categories : list nat) : M (list string) :=
  if decide (NoDup categories) then
    match categories with
    | [] => ret []
    | _ => raise (IntegerCategories categories)
    end
  else raise (ValueError "Categorical categories must be unique").

(** [series.astype(dtype)] for a categorical dtype: a new column. *)
Definition Series_astype (address : nat) (dtype : list string) : M nat :=
  s ← load address;
  new_series
    (CategorySeries
       match s with
       | ObjectSeries _ => set_categories dtype (astype_category s)
       | CategorySeries c => astype_dtype dtype c
       end).

(** [series.cat.set_categories(new_categories, inplace=True)] *)
Definition cat_set_categories_inplace (address : nat)
    (new_categories : list string) : M unit :=
  c ← cat address;
  dtype ← CategoricalDtype new_categories;
  store address (CategorySeries (set_categories dtype c)).

(** [DataFrame(index=X.index)] *)
Definition DataFrame_of_index (X : DataFrame) : DataFrame :=
  {| index := index X; columns := [] |}.

(** The column object a frame holds under a name, read from a heap. *)
Definition column_at (h : list Series) (X : DataFrame) (column : string)
  : option Series :=
  dict_get (columns X) column ≫= λ address, h !! address.

(** A frame as pandas builds them: the column names are distinct and each
    leads to a well-formed column object of the heap. *)
Definition wf_column_at (h : list Series) (p : string * nat) : Prop :=
  match h !! p.2 with
  | Some s => wf_series s
  | None => False
  end.

Definition valid_frame (h : list Series) (X : DataFrame) : Prop :=
  NoDup (dict_keys (columns X)) ∧ Forall (wf_column_at h) (columns X).

Global Instance wf_column_at_dec h p : Decision (wf_column_at h p).
Proof. unfold wf_column_at. destruct (h !! p.2); simpl; apply _. Defined.

Global Instance valid_frame_dec h X : Decision (valid_frame h X).
Proof. unfold valid_frame. apply _. Defined.

(** A frame on which the fit reads what it means to read.
    [rank.reset_index()] puts the ranked values under the label [index]
    unless the ranked column carries that label itself; then it is the
    counts that [rank['index']] reads.  The frames of [fit_frame] have no
    column labelled [index] where the frequency branch runs. *)
Definition fit_frame (self : CategoryFeatureGenerator) (h : list Series)
    (X : DataFrame) : Prop :=
  valid_frame h X ∧ (ranks self = true → "index" ∉ dict_keys (columns X)).

Global Instance fit_frame_dec self h X : Decision (fit_frame self h X).
Proof. unfold fit_frame. apply _. Defined.

(** A category map as fitting builds them: a vocabulary holds no value
    twice. *)
Definition wf_category_map (m : dict (list string)) : Prop :=
  NoDup (dict_keys m) ∧ Forall (λ p : string * list string, NoDup p.2) m.

Global Instance wf_category_map_dec m : Decision (wf_category_map m).
Proof. unfold wf_category_map. apply _. Defined.

(** [d[key]] *)
Definition dict_getitem {V} (d : dict V) (key : string) : M V :=
  match dict_get d key with
  | Some v => ret v
  | None => raise (KeyError key)
  end.

(** ** The methods of [CategoryFeatureGenerator] *)

Section methods.
Context `{SortValues}.

(** The body of the loop over the keys of the category map. *)
Definition recode_column (X_category : DataFrame)
    (category_map : dict (list string)) (_ : unit) (column : string)
  : M unit :=
  series ← getitem X_category column;
  new_categories ← dict_getitem category_map column;
  cat_set_categories_inplace series new_categories.

Definition _generate_features_category (X : DataFrame) : M DataFrame :=
  self ← get_self;
  if decide (features_in self ≠ []) then
    X_category ← DataFrame_astype_category X;
    match category_map self with
    | Some category_map =>
        X_category ← deepcopy X_category;
        foldM (recode_column X_category category_map) ()
              (dict_keys category_map);;
        ret X_category
    | None => ret X_category
    end
  else ret (DataFrame_of_index X).

Definition _transform (X : DataFrame) : M DataFrame :=
  _generate_features_category X.

(** The body of the loop over the columns. *)
Definition fit_column
    (acc : DataFrame * dict (list string)) (column : string)
  : M (DataFrame * dict (list string)) :=
  let '(X_category, category_map) := acc in
  self ← get_self;
  X_category ←
    (if ranks self then
       series ← getitem X_category column;
       X_column ← cat series;
       dtype ←
         (if decide (column = "index") then
            match count_list self X_column with
            | inl category_list => CategoricalDtype category_list
            | inr category_list => CategoricalDtype_counts category_list
            end
          else CategoricalDtype (category_list self X_column));
       series ← Series_astype series dtype;
       ret (setitem X_category column series)
     else if decide (cat_order self = "alphanumeric") then
       series ← getitem X_category column;
       X_column ← cat series;
       dtype ← CategoricalDtype (sort_strings (categories X_column));
       series ← Series_astype series dtype;
       ret (setitem X_category column series)
     else ret X_category);
  series ← getitem X_category column;
  X_column ← cat series;
  ret (X_category, dict_set category_map column (categories X_column)).

Definition _generate_category_map (X : DataFrame)
  : M (DataFrame * option (dict (list string))) :=
  self ← get_self;
  if decide (features_in self ≠ []) then
    X_category ← DataFrame_astype_category X;
    let category_map : dict (list string) := [] in
    '(X_category, category_map) ←
      foldM fit_column (X_category, category_map)
        (dict_keys (columns X_category));
    ret (X_category, Some category_map)
  else ret (DataFrame_of_index X, None).

Definition _fit_transform (X : DataFrame)
  : M (DataFrame * dict (list string)) :=
  self ← get_self;
  X_out ←
    (if _stateful_categories self then
       '(X_out, category_map) ← _generate_category_map X;
       set_category_map category_map;;
       ret X_out
     else _transform X);
  self ← get_self;
  let special := type_group_map_special (feature_metadata_in self) in
  let special :=
    if decide ("text" ∈ dict_keys special) then
      let text_features := group special "text" in
      let special := dict_pop special "text" in
      dict_set special "text_as_category"
        (group special "text_as_category"
         ++ filter (λ feature, feature ∉ group special "text_as_category")
              text_features)
    else special in
  ret (X_out, special).

(** Successive fits of the same generator, one per frame. *)
Definition fits (Xs : list DataFrame) : M (list DataFrame) :=
  mapM (λ X, '(X_out, _) ← _fit_transform X; ret X_out) Xs.

(** The vocabulary the generator holds for a column once it has been
    fitted on [X]. *)
Definition fitted_vocabulary (X : DataFrame) (column : string) (st : State)
  : option (list string) :=
  match _fit_transform X st with
  | (inr _, st') => category_map (self st') ≫= λ m, dict_get m column
  | (inl _, _) => None
  end.
End methods.

(** The output of a fit that only coerces: the rows of the input and, when
    the generator has input features, each column of the input as a
    categorical; no column when it has none. *)
Definition coerced (h h' : list Series) (features : list string)
    (X X_out : DataFrame) : Prop :=
  index X_out = index X ∧
  (features = [] → columns X_out = []) ∧
  (features ≠ [] →
   dict_keys (columns X_out) = dict_keys (columns X) ∧
   ∀ c s, column_at h X c = Some s →
     column_at h' X_out c = Some (CategorySeries (astype_category s))).

(** ** A one-column table for the examples *)

Definition example_generator (stateful_categories : bool) (cat_order : string)
    (minimum_cat_count maximum_num_cat : option Z)
  : CategoryFeatureGenerator :=
  {| _stateful_categories := stateful_categories;
     cat_order := cat_order;
     _minimum_cat_count := minimum_cat_count;
     _maximum_num_cat := maximum_num_cat;
     category_map := None;
     post_generators := [CategoryMemoryMinimizeFeatureGenerator true];
     features_in := ["c"];
     feature_metadata_in :=
       {| type_group_map_raw := [("object", ["c"])];
          type_group_map_special := [] |} |}.

(** The table with the single object column ["c"] holding [vs]. *)
Definition example_frame (vs : list string) : DataFrame :=
  {| index := seqZ 0 (Z.of_nat (length vs)); columns := [("c", 0)] |}.

Definition example_state (g : CategoryFeatureGenerator) (vs : list string)
  : State :=
  {| self := g; heap := [ObjectSeries (Some <$> vs)] |}.

(** * Properties *)

(** Closed decidable facts are settled by evaluation. *)
Ltac by_compute := apply (bool_decide_unpack _); vm_compute; exact I.

(** ** The two sorting algorithms meet the interface *)

Lemma insert_count_perm p s : insert_count p s ≡ₚ p :: s.
Proof.
  induction s as [|q s IH]; simpl; [done|].
  case_decide; [done|]. by rewrite IH, Permutation_swap.
Qed.

Lemma insertion_sort_perm s : insertion_sort s ≡ₚ s.
Proof.
  induction s as [|p s IH]; simpl; [done|].
  by rewrite insert_count_perm, IH.
Qed.

Lemma insert_count_sorted p s :
  StronglySorted (count_order true) s →
  StronglySorted (count_order true) (insert_count p s).
Proof.
  induction 1 as [|q s Hs IH Hq]; simpl.
  - repeat constructor.
  - case_decide as Hle.
    + constructor; [by constructor|].
      constructor; [done|].
      eapply Forall_impl; [exact Hq|]. unfold count_order; simpl. lia.
    + constructor; [done|].
      rewrite insert_count_perm. constructor; [|done].
      unfold count_order; simpl. lia.
Qed.

Lemma insertion_sort_sorted s :
  StronglySorted (count_order true) (insertion_sort s).
Proof.
  induction s as [|p s IH]; simpl; [constructor|].
  by apply insert_count_sorted.
Qed.

Lemma quicksort_fuel_perm fuel s :
  length s ≤ fuel → quicksort_fuel fuel s ≡ₚ s.
Proof.
  revert s. induction fuel as [|fuel IH]; intros [|p s] Hlen; simpl in *;
    try done; try lia.
  rewrite !IH.
  - rewrite <-Permutation_middle. f_equiv.
    induction s as [|q s IHs]; [done|].
    rewrite !filter_cons. case_decide; case_decide; simpl; try done.
    + f_equiv. apply IHs. simpl in Hlen. lia.
    + rewrite <-Permutation_middle. f_equiv. apply IHs. simpl in Hlen. lia.
  - pose proof (length_filter (λ q, ¬ (q.2 ≤ p.2)%nat) s). lia.
  - pose proof (length_filter (λ q, (q.2 ≤ p.2)%nat) s). lia.
Qed.

Lemma quicksort_perm s : quicksort s ≡ₚ s.
Proof. by apply quicksort_fuel_perm. Qed.

Lemma quicksort_fuel_sorted fuel s :
  length s ≤ fuel → StronglySorted (count_order true) (quicksort_fuel fuel s).
Proof.
  revert s. induction fuel as [|fuel IH]; intros [|p s] Hlen; simpl in *;
    try constructor; try lia.
  pose proof (length_filter (λ q, ¬ (q.2 ≤ p.2)%nat) s) as Hgt.
  pose proof (length_filter (λ q, (q.2 ≤ p.2)%nat) s) as Hle.
  apply StronglySorted_app. split_and!.
  - intros x1 x2 Hx1 Hx2.
    rewrite quicksort_fuel_perm in Hx1 by lia.
    apply list_elem_of_filter in Hx1 as [Hx1 _].
    apply elem_of_cons in Hx2 as [->|Hx2]; [done|].
    rewrite quicksort_fuel_perm in Hx2 by lia.
    apply list_elem_of_filter in Hx2 as [Hx2 _].
    unfold count_order; simpl. lia.
  - apply IH. lia.
  - constructor; [apply IH; lia|].
    apply Forall_forall. intros x Hx.
    rewrite quicksort_fuel_perm in Hx by lia.
    apply list_elem_of_filter in Hx as [Hx _].
    unfold count_order; simpl. lia.
Qed.

Lemma quicksort_sorted s : StronglySorted (count_order true) (quicksort s).
Proof. by apply quicksort_fuel_sorted. Qed.

Lemma reverse_sorted s :
  StronglySorted (count_order true) s →
  StronglySorted (count_order false) (reverse s).
Proof.
  induction 1 as [|p s Hs IH Hp]; [constructor|].
  rewrite reverse_cons. apply StronglySorted_app. split_and!.
  - intros x1 x2 Hx1 ->%list_elem_of_singleton.
    rewrite elem_of_reverse in Hx1.
    rewrite Forall_forall in Hp. apply Hp in Hx1. done.
  - done.
  - repeat constructor.
Qed.

Lemma directed_perm sort ascending s :
  (∀ s, sort s ≡ₚ s) → directed sort ascending s ≡ₚ s.
Proof.
  intros Hsort. unfold directed. destruct ascending; [done|].
  by rewrite reverse_Permutation.
Qed.

Lemma directed_sorted sort ascending s :
  (∀ s, StronglySorted (count_order true) (sort s)) →
  StronglySorted (count_order ascending) (directed sort ascending s).
Proof.
  intros Hsort. unfold directed. destruct ascending; [done|].
  by apply reverse_sorted.
Qed.

Definition stable_kind : SortValues :=
  {| sort_values := directed insertion_sort;
     sort_values_perm a s := directed_perm _ a s insertion_sort_perm;
     sort_values_sorted a s := directed_sorted _ a s insertion_sort_sorted |}.

Definition quicksort_kind : SortValues :=
  {| sort_values := directed quicksort;
     sort_values_perm a s := directed_perm _ a s quicksort_perm;
     sort_values_sorted a s := directed_sorted _ a s quicksort_sorted |}.

(** ** The order on strings *)

Lemma ascii_compare_lt_trans a b c :
  Ascii.compare a b = Lt → Ascii.compare b c = Lt → Ascii.compare a c = Lt.
Proof.
  unfold Ascii.compare. rewrite !N.compare_lt_iff. lia.
Qed.

Lemma string_compare_trans a b c :
  String.compare a b ≠ Gt → String.compare b c ≠ Gt → String.compare a c ≠ Gt.
Proof.
  revert b c. induction a as [|x a IH]; intros [|y b] [|z c]; simpl; try done.
  destruct (Ascii.compare x y) eqn:Hxy; [| |done].
  - apply Ascii.compare_eq_iff in Hxy as ->.
    destruct (Ascii.compare y z) eqn:Hyz; [|done|done]. apply IH.
  - destruct (Ascii.compare y z) eqn:Hyz; [| |done].
    + apply Ascii.compare_eq_iff in Hyz as ->. by rewrite Hxy.
    + by rewrite (ascii_compare_lt_trans x y z).
Qed.

Lemma str_le_compare a b : str_le a b ↔ String.compare a b ≠ Gt.
Proof.
  unfold str_le, String.leb. destruct (String.compare a b); naive_solver.
Qed.

Global Instance str_le_trans : Transitive str_le.
Proof.
  intros a b c. rewrite !str_le_compare. apply string_compare_trans.
Qed.

Global Instance str_le_total : Total str_le.
Proof. intros a b. apply String.leb_total. Qed.

Global Instance str_le_antisymm : AntiSymm (=) str_le.
Proof. intros a b. apply String.leb_antisym. Qed.

Lemma sort_strings_perm l : sort_strings l ≡ₚ l.
Proof. apply merge_sort_Permutation. Qed.

Lemma sort_strings_sorted l : StronglySorted str_le (sort_strings l).
Proof. apply StronglySorted_merge_sort; apply _. Qed.

Lemma sorted_filter {A} (R : relation A) (P : A → Prop)
    `{∀ x, Decision (P x)} l :
  StronglySorted R l → StronglySorted R (filter P l).
Proof.
  induction 1 as [|x l Hl IH Hx]; [constructor|].
  rewrite filter_cons. case_decide; [|done].
  constructor; [done|]. apply Forall_forall. intros y Hy.
  apply list_elem_of_filter in Hy as [_ Hy]. by eapply Forall_forall in Hx.
Qed.

Lemma sorted_drop {A} (R : relation A) n l :
  StronglySorted R l → StronglySorted R (drop n l).
Proof.
  intros Hl. revert n. induction Hl as [|x l Hl IH Hx]; intros [|n]; simpl;
    try constructor; auto.
Qed.

(** ** Counts and the ranking *)

Section column_facts.
Context `{SortValues}.
Implicit Types (self : CategoryFeatureGenerator) (c : Categorical).

Lemma category_counts_fst c : (category_counts c).*1 = categories c.
Proof.
  unfold category_counts.
  induction (categories c) as [|v l IH]; simpl; [done|]. by f_equal.
Qed.

Lemma elem_of_category_counts c p :
  p ∈ category_counts c ↔
  p.1 ∈ categories c ∧ p.2 = frequency p.1 (values c).
Proof.
  unfold category_counts. rewrite list_elem_of_fmap. split.
  - intros (v & -> & Hv). done.
  - intros [Hv Hp]. exists p.1. split; [|done]. destruct p; simpl in *.
    by subst.
Qed.

Lemma ranking_perm c : ranking c ≡ₚ category_counts c.
Proof. unfold ranking, value_counts. by rewrite !sort_values_perm. Qed.

Lemma ranking_sorted c : StronglySorted (count_order true) (ranking c).
Proof. apply sort_values_sorted. Qed.

Lemma slice_from_drop {A} start (l : list A) :
  ∃ n, slice_from start l = drop n l.
Proof. unfold slice_from. eauto. Qed.

Lemma at_most_drop n r : ∃ k, at_most n r = drop k r.
Proof.
  destruct n as [n|]; simpl; [apply slice_from_drop|]. by exists 0.
Qed.

Lemma at_most_sublist n r : at_most n r `sublist_of` r.
Proof. destruct (at_most_drop n r) as [k ->]. apply sublist_drop. Qed.

Lemma at_least_sublist k r : at_least k r `sublist_of` r.
Proof. destruct k; simpl; [apply sublist_filter|done]. Qed.

Lemma rank_sublist self c : rank self c `sublist_of` ranking c.
Proof.
  unfold rank. etrans; [apply at_most_sublist|apply at_least_sublist].
Qed.

Lemma rank_sorted self c : StronglySorted (count_order true) (rank self c).
Proof.
  unfold rank. destruct (at_most_drop (_maximum_num_cat self)
    (at_least (_minimum_cat_count self) (ranking c))) as [k ->].
  apply sorted_drop. destruct (_minimum_cat_count self); simpl.
  - apply sorted_filter, ranking_sorted.
  - apply ranking_sorted.
Qed.

Lemma elem_of_rank self c p :
  p ∈ rank self c → p.1 ∈ categories c ∧ p.2 = frequency p.1 (values c).
Proof.
  intros Hp. apply elem_of_category_counts. rewrite <-ranking_perm.
  eapply sublist_subseteq; [apply rank_sublist|done].
Qed.

Lemma rank_fst_NoDup self c :
  NoDup (categories c) → NoDup (rank self c).*1.
Proof.
  intros Hc. apply (sublist_NoDup _ (ranking c).*1).
  - by rewrite ranking_perm, category_counts_fst.
  - apply fmap_sublist, rank_sublist.
Qed.

Lemma rank_fst_subseteq self c v :
  v ∈ (rank self c).*1 → v ∈ categories c.
Proof.
  intros (p & -> & Hp)%list_elem_of_fmap. by apply elem_of_rank in Hp as [? _].
Qed.
End column_facts.

(** ** The list of categories a column is recoded against *)

Lemma filter_all {A} (P : A → Prop) `{∀ x, Decision (P x)} (l : list A) :
  (∀ x, x ∈ l → P x) → filter P l = l.
Proof.
  induction l as [|x l IH]; intros HP; [done|].
  rewrite filter_cons, decide_True by (apply HP; by left).
  f_equal. apply IH. intros y Hy. apply HP. by right.
Qed.

Lemma filter_elem_of_perm (k l : list string) :
  NoDup l → NoDup k → k ⊆ l → filter (λ x, x ∈ k) l ≡ₚ k.
Proof.
  intros Hl Hk Hkl. apply NoDup_Permutation; [apply NoDup_filter, Hl|done|].
  intros x. rewrite list_elem_of_filter. split; [tauto|]. intros Hx.
  split; [done|]. by apply Hkl.
Qed.

Lemma short_perm_eq {A} (k l : list A) : length l ≤ 1 → k ≡ₚ l → k = l.
Proof.
  destruct l as [|x [|y l]]; simpl; intros Hlen Hkl; try lia.
  - by apply Permutation_nil_r.
  - by apply Permutation_singleton_r.
Qed.

Section vocabulary_facts.
Context `{SortValues}.
Implicit Types (self : CategoryFeatureGenerator) (c : Categorical).

Lemma category_list_perm self c :
  NoDup (categories c) → category_list self c ≡ₚ (rank self c).*1.
Proof.
  intros Hc. unfold category_list. repeat case_decide; try done.
  - apply filter_elem_of_perm; [done|by apply rank_fst_NoDup|].
    intros v. apply rank_fst_subseteq.
  - apply sort_strings_perm.
Qed.

Lemma category_list_original self c :
  cat_order self = "original" → NoDup (categories c) →
  category_list self c
  = filter (λ v, v ∈ (rank self c).*1) (categories c).
Proof.
  intros Ho Hc. unfold category_list.
  case_decide as Hlen; [by rewrite decide_True|].
  symmetry. apply short_perm_eq; [lia|].
  apply filter_elem_of_perm; [done|by apply rank_fst_NoDup|].
  intros v. apply rank_fst_subseteq.
Qed.

Lemma category_list_NoDup self c :
  NoDup (categories c) → NoDup (category_list self c).
Proof.
  intros Hc. rewrite category_list_perm by done. by apply rank_fst_NoDup.
Qed.


Lemma astype_dtype_categories l c :
  categories (astype_dtype l c)
  = if decide (same_categories l (categories c)) then categories c else l.
Proof. unfold astype_dtype. by case_decide. Qed.

Lemma same_categories_perm l1 l2 :
  NoDup l1 → NoDup l2 → same_categories l1 l2 → l1 ≡ₚ l2.
Proof.
  intros Hl1 Hl2 [H12 H21]. apply NoDup_Permutation; [done..|].
  intros x. split; [apply H12|apply H21].
Qed.

Lemma vocabulary_unfold self c :
  vocabulary self c
  = match new_categories self c with
    | Some category_list =>
        if decide (same_categories category_list (categories c))
        then categories c else category_list
    | None => categories c
    end.
Proof.
  unfold vocabulary, recoded. destruct (new_categories self c); [|done].
  apply astype_dtype_categories.
Qed.

Lemma new_categories_NoDup self c l :
  NoDup (categories c) → new_categories self c = Some l → NoDup l.
Proof.
  intros Hc. unfold new_categories. destruct (ranks self).
  - intros [= <-]. by apply category_list_NoDup.
  - case_decide; [|done]. intros [= <-]. by rewrite sort_strings_perm.
Qed.

(** The order apart, the vocabulary is the list the column was to be
    recoded against. *)
Lemma vocabulary_perm self c :
  NoDup (categories c) →
  vocabulary self c ≡ₚ default (categories c) (new_categories self c).
Proof.
  intros Hc. rewrite vocabulary_unfold.
  destruct (new_categories self c) as [l|] eqn:Hl; [|done]. cbn [default].
  case_decide as Hsame; [|done]. symmetry.
  apply same_categories_perm; [by eapply new_categories_NoDup|done..].
Qed.

Lemma vocabulary_NoDup self c :
  NoDup (categories c) → NoDup (vocabulary self c).
Proof.
  intros Hc. rewrite vocabulary_perm by done.
  destruct (new_categories self c) as [l|] eqn:Hl; [|done].
  by eapply new_categories_NoDup.
Qed.

Lemma vocabulary_ranked self c :
  ranks self = true → NoDup (categories c) →
  vocabulary self c ≡ₚ category_list self c.
Proof.
  intros Hr Hc. rewrite vocabulary_perm by done.
  unfold new_categories. by rewrite Hr.
Qed.



Lemma vocabulary_original self c :
  cat_order self = "original" → NoDup (categories c) →
  vocabulary self c
  = if ranks self
    then filter (λ v, v ∈ (rank self c).*1) (categories c)
    else categories c.
Proof.
  intros Ho Hc. rewrite vocabulary_unfold. unfold new_categories.
  destruct (ranks self).
  - rewrite category_list_original by done. case_decide as Hsame; [|done].
    symmetry. apply filter_all. intros v Hv.
    destruct Hsame as [_ Hall]. by apply Hall, list_elem_of_filter in Hv as [? _].
  - rewrite decide_False; [done|]. by rewrite Ho.
Qed.

End vocabulary_facts.

(** ** Dictionaries *)

Lemma dict_get_elem_of {V} (d : dict V) k v :
  dict_get d k = Some v → (k, v) ∈ d.
Proof.
  induction d as [|[k' v'] d IH]; simpl; [done|].
  case_decide as Hk; [|by right; auto].
  intros [= ->]. subst. by left.
Qed.

Lemma dict_get_is_Some {V} (d : dict V) k :
  k ∈ dict_keys d → is_Some (dict_get d k).
Proof.
  unfold dict_keys. induction d as [|[k' v'] d IH]; simpl.
  - by intros ?%elem_of_nil.
  - case_decide; [by eauto|]. intros [?|?]%elem_of_cons; [done|by apply IH].
Qed.

Lemma dict_get_inj {V} (d : dict V) k1 k2 v :
  NoDup d.*2 → dict_get d k1 = Some v → dict_get d k2 = Some v → k1 = k2.
Proof.
  induction d as [|[k' v'] d IH]; simpl; [done|].
  intros [Hv' Hd]%NoDup_cons. repeat case_decide; subst.
  - done.
  - intros [= ->] Hk2%dict_get_elem_of. destruct Hv'.
    apply list_elem_of_fmap. by exists (k2, v).
  - intros Hk1%dict_get_elem_of [= ->]. destruct Hv'.
    apply list_elem_of_fmap. by exists (k1, v).
  - by apply IH.
Qed.

Lemma dict_get_set {V} (d : dict V) k k' v :
  dict_get (dict_set d k v) k'
  = if decide (k = k') then Some v else dict_get d k'.
Proof.
  induction d as [|[k0 v0] d IH]; simpl; [done|].
  destruct (decide (k0 = k)) as [->|Hne]; simpl.
  - repeat case_decide; congruence.
  - rewrite IH. repeat case_decide; congruence.
Qed.

(** ** Running the heap operations *)

Lemma run_bind {A B} (m : M A) (k : A → M B) st :
  (m ≫= k) st
  = match m st with
    | (inr a, st') => k a st'
    | (inl e, st') => (inl e, st')
    end.
Proof. done. Qed.

Lemma run_load address st s :
  heap st !! address = Some s → load address st = (inr s, st).
Proof. intros Hs. unfold load. by rewrite Hs. Qed.

Lemma run_copy_columns_cons f c a cols st :
  copy_columns f ((c, a) :: cols) st
  = match heap st !! a with
    | Some s =>
        match copy_columns f cols
                {| self := self st; heap := heap st ++ [f s] |} with
        | (inr cols', st') => (inr ((c, length (heap st)) :: cols'), st')
        | (inl e, st') => (inl e, st')
        end
    | None => (inl (InvalidReference a), st)
    end.
Proof.
  change (copy_columns f ((c, a) :: cols))
    with ((load a ≫= λ s, new_series (f s) ≫= λ a', ret (c, a'))
          ≫= λ b, copy_columns f cols ≫= λ bs, ret (b :: bs)).
  unfold mbind, M_bind, bind, load, new_series, ret. simpl.
  destruct (heap st !! a); [|done].
  by destruct (copy_columns f cols _) as [[?|?] ?].
Qed.

(** Whatever happens, copying columns leaves the generator and the
    existing column objects alone, and on success the copies sit at the
    new addresses. *)
Lemma copy_columns_frame f cols st :
  ∃ ext,
    (copy_columns f cols st).2
    = {| self := self st; heap := heap st ++ ext |} ∧
    ∀ cols', (copy_columns f cols st).1 = inr cols' →
      cols'.*2 = seq (length (heap st)) (length cols) ∧
      length ext = length cols.
Proof.
  revert st. induction cols as [|[c a] cols IH]; intros st.
  - exists []. rewrite app_nil_r. destruct st. split; [done|].
    by intros ? [= <-].
  - rewrite run_copy_columns_cons.
    destruct (heap st !! a) as [s|] eqn:Ha.
    + destruct (IH {| self := self st; heap := heap st ++ [f s] |})
        as (ext & Hst & Hok).
      destruct (copy_columns f cols _) as [[e|cols'] st']; simpl in *.
      * exists (f s :: ext). rewrite Hst, <-app_assoc. split; [done|].
        by intros ? [=].
      * exists (f s :: ext). rewrite Hst, <-app_assoc. split; [done|].
        intros ? [= <-]. destruct (Hok _ eq_refl) as [Hsnd Hlen].
        rewrite fmap_cons, Hsnd, length_app. simpl.
        split; [|by rewrite Hlen]. f_equal. f_equal. lia.
    + exists []. rewrite app_nil_r. destruct st. split; [done|].
      by intros ? [=].
Qed.

(** When every address of the frame is in the heap, copying succeeds and
    each name leads to the image of the column it led to. *)
Lemma copy_columns_spec f cols st :
  (∀ c a, (c, a) ∈ cols → a < length (heap st)) →
  ∃ cols' ext,
    copy_columns f cols st
    = (inr cols', {| self := self st; heap := heap st ++ ext |}) ∧
    dict_keys cols' = dict_keys cols ∧
    cols'.*2 = seq (length (heap st)) (length cols) ∧
    length ext = length cols ∧
    ∀ c, (dict_get cols' c ≫= λ a, (heap st ++ ext) !! a)
         = f <$> (dict_get cols c ≫= λ a, heap st !! a).
Proof.
  revert st. induction cols as [|[c0 a0] cols IH]; intros st Hvalid.
  - exists [], []. rewrite app_nil_r. by destruct st.
  - rewrite run_copy_columns_cons.
    destruct (lookup_lt_is_Some_2 (heap st) a0) as [s0 Ha0];
      [apply (Hvalid c0); by left|].
    rewrite Ha0.
    destruct (IH {| self := self st; heap := heap st ++ [f s0] |})
      as (cols' & ext & Hrun & Hkeys & Hsnd & Hlen & Hat).
    { intros c a Hca. simpl. rewrite length_app. simpl.
      assert (a < length (heap st)); [|lia]. apply (Hvalid c). by right. }
    rewrite Hrun. cbn [heap self] in *.
    exists ((c0, length (heap st)) :: cols'), (f s0 :: ext).
    split_and!.
    + by rewrite <-app_assoc.
    + unfold dict_keys in *. by rewrite !fmap_cons, Hkeys.
    + rewrite !fmap_cons, Hsnd, length_app. simpl. do 2 f_equal. lia.
    + simpl. by rewrite Hlen.
    + intros c. specialize (Hat c). rewrite <-app_assoc in Hat.
      change ([f s0] ++ ext) with (f s0 :: ext) in Hat.
      cbn [dict_get]. case_decide as Hc.
      * cbn [mbind option_bind]. rewrite Ha0.
        by rewrite list_lookup_middle.
      * rewrite Hat.
        destruct (dict_get cols c) as [a|] eqn:Hget; [|done].
        cbn [mbind option_bind]. rewrite lookup_app_l; [done|].
        apply (Hvalid c). right. by apply dict_get_elem_of.
Qed.

Lemma run_cat address st :
  cat address st
  = match heap st !! address with
    | Some (CategorySeries c) => (inr c, st)
    | Some (ObjectSeries _) =>
        (inl (AttributeError
                "Can only use .cat accessor with a 'category' dtype"), st)
    | None => (inl (InvalidReference address), st)
    end.
Proof.
  unfold cat. rewrite run_bind. unfold load.
  by destruct (heap st !! address) as [[?|?]|].
Qed.

Lemma run_CategoricalDtype l st :
  NoDup l → CategoricalDtype l st = (inr l, st).
Proof. intros Hl. unfold CategoricalDtype. by rewrite decide_True. Qed.

Lemma run_getitem X column address st :
  dict_get (columns X) column = Some address →
  getitem X column st = (inr address, st).
Proof. intros Hget. unfold getitem. by rewrite Hget. Qed.

Lemma run_dict_getitem {V} (d : dict V) key v st :
  dict_get d key = Some v → dict_getitem d key st = (inr v, st).
Proof. intros Hget. unfold dict_getitem. by rewrite Hget. Qed.

Lemma run_cat_set_categories_inplace address new_categories c st :
  heap st !! address = Some (CategorySeries c) → NoDup new_categories →
  cat_set_categories_inplace address new_categories st
  = (inr (),
     {| self := self st;
        heap := <[address := CategorySeries (set_categories new_categories c)]>
                  (heap st) |}).
Proof.
  intros Ha Hnew. unfold cat_set_categories_inplace.
  rewrite run_bind, run_cat, Ha, run_bind, run_CategoricalDtype by done.
  done.
Qed.

(** An in-place recoding touches one address and nothing else. *)
Lemma cat_set_categories_inplace_frame address new_categories st r st' :
  cat_set_categories_inplace address new_categories st = (r, st') →
  self st' = self st ∧ length (heap st') = length (heap st) ∧
  ∀ n, n ≤ address → take n (heap st') = take n (heap st).
Proof.
  unfold cat_set_categories_inplace. rewrite run_bind, run_cat.
  destruct (heap st !! address) as [[?|c]|]; try by intros [= <- <-].
  rewrite run_bind. unfold CategoricalDtype.
  case_decide; [|by intros [= <- <-]].
  intros [= <- <-]. cbn [self heap].
  split_and!; [done|by rewrite length_insert|].
  intros n Hn. by apply take_insert_ge.
Qed.

Lemma recode_column_frame X cmap c n st r st' :
  (∀ c a, (c, a) ∈ columns X → n ≤ a) →
  recode_column X cmap () c st = (r, st') →
  self st' = self st ∧ length (heap st') = length (heap st) ∧
  take n (heap st') = take n (heap st).
Proof.
  intros Hfresh. unfold recode_column. rewrite run_bind. unfold getitem.
  destruct (dict_get (columns X) c) as [a|] eqn:Hget;
    [|by intros [= <- <-]].
  cbn [ret]. rewrite run_bind. unfold dict_getitem.
  destruct (dict_get cmap c) as [voc|]; [|by intros [= <- <-]].
  cbn [ret]. intros (? & ? & Htake)%cat_set_categories_inplace_frame.
  split_and!; [done..|]. apply Htake, (Hfresh c), dict_get_elem_of, Hget.
Qed.

Lemma recode_columns_frame X cmap keys n st r st' :
  (∀ c a, (c, a) ∈ columns X → n ≤ a) →
  foldM (recode_column X cmap) () keys st = (r, st') →
  self st' = self st ∧ length (heap st') = length (heap st) ∧
  take n (heap st') = take n (heap st).
Proof.
  intros Hfresh. revert st. induction keys as [|c keys IH]; intros st.
  { by intros [= <- <-]. }
  cbn [foldM]. rewrite run_bind.
  destruct (recode_column X cmap () c st) as [[e|[]] st1] eqn:Hstep;
    apply (recode_column_frame _ _ _ n) in Hstep as (Hself & Hlen & Htake);
    try done.
  - by intros [= <- <-].
  - intros (? & ? & ?)%IH. split_and!; congruence.
Qed.

Lemma run_copy_frame f X st r st' :
  (cols ← copy_columns f (columns X);
   ret {| index := index X; columns := cols |}) st = (r, st') →
  ∃ ext, st' = {| self := self st; heap := heap st ++ ext |} ∧
    ∀ X', r = inr X' →
      index X' = index X ∧
      (columns X').*2 = seq (length (heap st)) (length (columns X)) ∧
      length ext = length (columns X).
Proof.
  rewrite run_bind.
  destruct (copy_columns_frame f (columns X) st) as (ext & Hst & Hok).
  destruct (copy_columns f (columns X) st) as [[e|cols] st1];
    simpl in Hst; subst st1; intros [= <- <-]; exists ext;
    (split; [done|]).
  - by intros ? [=].
  - intros ? [= <-]. split; [done|]. by apply Hok.
Qed.

Section transform_frame.
Context `{SortValues}.

(** [_generate_features_category] mutates no column object that existed
    before the call and does not touch the generator; the frame it
    returns holds new column objects only. *)
Lemma _generate_features_category_frame X st r st' :
  _generate_features_category X st = (r, st') →
  self st' = self st ∧ heap st `prefix_of` heap st' ∧
  ∀ X_out, r = inr X_out →
    ∀ c a, (c, a) ∈ columns X_out →
      length (heap st) ≤ a < length (heap st').
Proof.
  unfold _generate_features_category. rewrite run_bind. cbn [get_self].
  case_decide as Hfeatures.
  2:{ intros [= <- <-]. split_and!; [done..|].
      intros ? [= <-] c a []%elem_of_nil. }
  rewrite run_bind.
  destruct (DataFrame_astype_category X st) as [[e|X1] st1] eqn:Hrun1;
    apply run_copy_frame in Hrun1 as (ext1 & -> & Hok1).
  { intros [= <- <-]. split_and!; [done|by apply prefix_app_r|done]. }
  destruct (Hok1 _ eq_refl) as (_ & Hsnd1 & Hlen1).
  destruct (category_map (self st)) as [cmap|].
  2:{ intros [= <- <-]. cbn [self heap].
      split_and!; [done|by apply prefix_app_r|].
      intros ? [= <-] c a Hca. rewrite length_app, Hlen1.
      assert (a ∈ (columns X1).*2) as Ha.
      { apply list_elem_of_fmap. by exists (c, a). }
      rewrite Hsnd1 in Ha. apply elem_of_seq in Ha. lia. }
  rewrite run_bind.
  destruct (deepcopy X1 _) as [[e|X2] st2] eqn:Hrun2;
    apply run_copy_frame in Hrun2 as (ext2 & -> & Hok2); cbn [self heap] in *.
  { intros [= <- <-]. cbn [self heap].
    split_and!; [done|by do 2 apply prefix_app_r|done]. }
  destruct (Hok2 _ eq_refl) as (_ & Hsnd2 & Hlen2).
  assert (∀ c a, (c, a) ∈ columns X2 →
            length (heap st) ≤ a < length ((heap st ++ ext1) ++ ext2))
    as Hfresh.
  { intros c a Hca. rewrite !length_app in *.
    assert (a ∈ (columns X2).*2) as Ha.
    { apply list_elem_of_fmap. by exists (c, a). }
    rewrite Hsnd2 in Ha. apply elem_of_seq in Ha. lia. }
  rewrite run_bind.
  destruct (foldM _ _ _ _) as [r3 st3] eqn:Hloop.
  apply (recode_columns_frame _ _ _ (length (heap st))) in Hloop
    as (Hself & Hlen & Htake);
    [|intros c a Hca; apply Hfresh in Hca; lia].
  cbn [self heap] in *.
  rewrite <-app_assoc, take_app_length in Htake.
  destruct r3 as [e|[]]; intros [= <- <-].
  - split_and!; [done| |done].
    rewrite <-Htake. apply prefix_take.
  - split_and!; [done| |].
    + rewrite <-Htake. apply prefix_take.
    + intros ? [= <-] c a Hca. rewrite Hlen. by apply Hfresh in Hca.
Qed.
End transform_frame.

Lemma dict_get_keys {V} (d : dict V) k v :
  dict_get d k = Some v → k ∈ dict_keys d.
Proof.
  intros Hget%dict_get_elem_of. apply list_elem_of_fmap. by exists (k, v).
Qed.

Section transform_spec.
Context `{SortValues}.

Lemma run_recode_column X cmap c a col voc g h :
  dict_get (columns X) c = Some a → h !! a = Some (CategorySeries col) →
  dict_get cmap c = Some voc → NoDup voc →
  recode_column X cmap () c {| self := g; heap := h |}
  = (inr (), {| self := g;
                heap := <[a := CategorySeries (set_categories voc col)]> h |}).
Proof.
  intros Ha Hcol Hvoc Hnd. unfold recode_column.
  rewrite run_bind, (run_getitem _ _ a) by done.
  rewrite run_bind, (run_dict_getitem _ _ voc) by done.
  by rewrite (run_cat_set_categories_inplace _ _ col).
Qed.

Lemma recode_columns_spec X cmap keys g h :
  NoDup keys → NoDup (columns X).*2 →
  (∀ c, c ∈ keys → ∃ a col voc,
     dict_get (columns X) c = Some a ∧ h !! a = Some (CategorySeries col) ∧
     dict_get cmap c = Some voc ∧ NoDup voc) →
  ∃ h',
    foldM (recode_column X cmap) () keys {| self := g; heap := h |}
    = (inr (), {| self := g; heap := h' |}) ∧
    length h' = length h ∧
    (∀ c a col voc, c ∈ keys →
       dict_get (columns X) c = Some a → h !! a = Some (CategorySeries col) →
       dict_get cmap c = Some voc →
       h' !! a = Some (CategorySeries (set_categories voc col))) ∧
    (∀ a, (∀ c, c ∈ keys → dict_get (columns X) c ≠ Some a) →
       h' !! a = h !! a).
Proof.
  intros Hkeys Hinj. revert h.
  induction Hkeys as [|c0 keys Hc0 Hkeys IH]; intros h Hcols.
  { exists h. split_and!; try done. by intros ???? ?%elem_of_nil. }
  destruct (Hcols c0) as (a0 & col0 & voc0 & Ha0 & Hcol0 & Hvoc0 & Hnd0);
    [by left|].
  set (h1 := <[a0 := CategorySeries (set_categories voc0 col0)]> h).
  assert (∀ c a, c ∈ keys → dict_get (columns X) c = Some a → a ≠ a0)
    as Hother.
  { intros c a Hc Ha ->. destruct Hc0.
    by rewrite (dict_get_inj _ c0 c a0 Hinj Ha0 Ha). }
  destruct (IH h1) as (h' & Hrun & Hlen & Hdone & Hrest).
  { intros c Hc.
    destruct (Hcols c) as (a & col & voc & Ha & Hcol & Hvoc & Hnd);
      [by right|].
    exists a, col, voc. split_and!; try done. unfold h1.
    rewrite list_lookup_insert_ne; [done|].
    intros ->. by apply (Hother c a Hc Ha). }
  exists h'. cbn [foldM]. rewrite run_bind.
  rewrite (run_recode_column _ _ _ a0 col0 voc0) by done.
  fold h1. rewrite Hrun. split_and!.
  - done.
  - rewrite Hlen. unfold h1. by rewrite length_insert.
  - intros c a col voc [->|Hc]%elem_of_cons Ha Hcol Hvoc.
    + simplify_eq. rewrite Hrest.
      * unfold h1. apply list_lookup_insert_eq. by eapply lookup_lt_Some.
      * intros c Hc Ha. by apply (Hother c a0 Hc Ha).
    + apply (Hdone c); try done. unfold h1.
      rewrite list_lookup_insert_ne; [done|].
      intros ->. by apply (Hother c a Hc Ha).
  - intros a Ha. rewrite Hrest.
    + unfold h1. rewrite list_lookup_insert_ne; [done|].
      intros <-. apply (Ha c0); [by left|done].
    + intros c Hc. apply Ha. by right.
Qed.

(** Application of a category map whose keys are columns of the frame:
    it succeeds, and every column comes out recoded against its
    vocabulary, or just coerced when the map has no entry for it. *)
Lemma _generate_features_category_spec X st cmap :
  features_in (self st) ≠ [] →
  category_map (self st) = Some cmap →
  NoDup (dict_keys cmap) →
  (∀ c voc, dict_get cmap c = Some voc → NoDup voc) →
  (∀ c, c ∈ dict_keys cmap → c ∈ dict_keys (columns X)) →
  (∀ c a, (c, a) ∈ columns X → a < length (heap st)) →
  ∃ X_out st',
    _generate_features_category X st = (inr X_out, st') ∧
    index X_out = index X ∧
    dict_keys (columns X_out) = dict_keys (columns X) ∧
    ∀ c s, column_at (heap st) X c = Some s →
      column_at (heap st') X_out c
      = Some (CategorySeries
                match dict_get cmap c with
                | Some voc => set_categories voc (astype_category s)
                | None => astype_category s
                end).
Proof.
  intros Hfeatures Hmap Hkeys Hvocs Hpresent Hvalid.
  unfold _generate_features_category. rewrite run_bind. cbn [get_self].
  rewrite decide_True by done. rewrite run_bind.
  unfold DataFrame_astype_category. rewrite run_bind.
  destruct (copy_columns_spec (λ s, CategorySeries (astype_category s))
              (columns X) st Hvalid)
    as (cols1 & ext1 & -> & Hkeys1 & Hsnd1 & Hlen1 & Hat1).
  cbn [ret]. rewrite Hmap, run_bind. unfold deepcopy. rewrite run_bind.
  cbn [columns index].
  destruct (copy_columns_spec id cols1
              {| self := self st; heap := heap st ++ ext1 |})
    as (cols2 & ext2 & -> & Hkeys2 & Hsnd2 & Hlen2 & Hat2).
  { intros c a Hca. cbn [heap]. rewrite length_app, Hlen1.
    assert (a ∈ cols1.*2) as Ha.
    { apply list_elem_of_fmap. by exists (c, a). }
    rewrite Hsnd1 in Ha. apply elem_of_seq in Ha. lia. }
  cbn [ret self heap] in *. rewrite run_bind.
  set (X2 := {| index := index X; columns := cols2 |}).
  set (h2 := (heap st ++ ext1) ++ ext2) in *.
  assert (∀ c s, column_at (heap st) X c = Some s →
            ∃ a2, dict_get cols2 c = Some a2 ∧
              h2 !! a2 = Some (CategorySeries (astype_category s)))
    as Hcopy.
  { intros c s Hs. specialize (Hat2 c). rewrite Hat1 in Hat2.
    unfold column_at in Hs. rewrite Hs in Hat2. cbn in Hat2.
    destruct (dict_get cols2 c) as [a2|]; [|done]. by exists a2. }
  assert (NoDup cols2.*2) as Hinj.
  { rewrite Hsnd2. apply NoDup_seq. }
  destruct (recode_columns_spec X2 cmap (dict_keys cmap) (self st) h2)
    as (h' & -> & Hlen & Hdone & Hrest); [done..| |].
  { intros c Hc.
    destruct (dict_get_is_Some _ _ (Hpresent c Hc)) as [a Ha].
    destruct (lookup_lt_is_Some_2 (heap st) a) as [s Hs].
    { apply (Hvalid c), dict_get_elem_of, Ha. }
    destruct (Hcopy c s) as (a2 & Ha2 & Hs2).
    { unfold column_at. by rewrite Ha. }
    destruct (dict_get_is_Some _ _ Hc) as [voc Hvoc].
    exists a2, (astype_category s), voc. split_and!; try done.
    by eapply Hvocs. }
  exists X2, {| self := self st; heap := h' |}. split_and!; try done.
  - unfold X2. cbn [columns]. by rewrite Hkeys2, Hkeys1.
  - intros c s Hs. destruct (Hcopy c s Hs) as (a2 & Ha2 & Hs2).
    unfold column_at, X2. cbn [columns heap]. rewrite Ha2.
    cbn [mbind option_bind].
    destruct (dict_get cmap c) as [voc|] eqn:Hvoc.
    + apply (Hdone c); try done. by eapply dict_get_keys.
    + rewrite Hrest; [done|]. intros c' Hc' Ha2'.
      assert (c' = c) as -> by by eapply dict_get_inj.
      destruct (dict_get_is_Some _ _ Hc') as [? ?]. congruence.
Qed.
End transform_spec.

Lemma dict_set_keys_NoDup {V} (d : dict V) k v :
  NoDup (dict_keys d) → NoDup (dict_keys (dict_set d k v)).
Proof.
  unfold dict_keys. induction d as [|[k0 v0] d IH]; cbn [dict_set].
  - intros _. rewrite fmap_cons. cbn. apply NoDup_singleton.
  - rewrite fmap_cons. intros [Hk0 Hd]%NoDup_cons. case_decide as Hk.
    + subst. rewrite fmap_cons. by apply NoDup_cons.
    + rewrite fmap_cons. apply NoDup_cons. split; [|by apply IH].
      cbn. intros (p & Hp1 & Hp2)%list_elem_of_fmap.
      destruct p as [k1 v1]. cbn in Hp1. subst k1.
      assert (dict_get (dict_set d k v) k0 = dict_get d k0) as Hget.
      { rewrite dict_get_set. by rewrite decide_False by done. }
      destruct Hk0.
      destruct (dict_get (dict_set d k v) k0) as [v2|] eqn:Hset.
      * symmetry in Hget. by apply dict_get_keys in Hget.
      * assert (is_Some (dict_get (dict_set d k v) k0)) as [? ?]; [|congruence].
        apply dict_get_is_Some, list_elem_of_fmap. by exists (k0, v1).
Qed.

Section fit_spec.
Context `{SortValues}.

Lemma run_Series_astype a dtype col st :
  heap st !! a = Some (CategorySeries col) →
  Series_astype a dtype st
  = (inr (length (heap st)),
     {| self := self st;
        heap := heap st ++ [CategorySeries (astype_dtype dtype col)] |}).
Proof.
  intros Hs. unfold Series_astype.
  by rewrite run_bind, (run_load _ _ (CategorySeries col)).
Qed.

(** One turn of the loop on a column that is still as the coercion
    left it. *)
Lemma run_fit_column X_category acc c a col g h :
  (ranks g = true → c ≠ "index") →
  dict_get (columns X_category) c = Some a →
  h !! a = Some (CategorySeries col) →
  NoDup (categories col) →
  fit_column (X_category, acc) c {| self := g; heap := h |}
  = (inr (match new_categories g col with
          | Some _ => setitem X_category c (length h)
          | None => X_category
          end,
          dict_set acc c (vocabulary g col)),
     {| self := g;
        heap := match new_categories g col with
                | Some _ => h ++ [CategorySeries (recoded g col)]
                | None => h
                end |}).
Proof.
  intros Hlabel Ha Hcol Hnd. unfold fit_column.
  rewrite run_bind. cbn [get_self self].
  pose proof (new_categories_NoDup g col) as Hnew.
  unfold vocabulary, recoded, new_categories in *.
  destruct (ranks g).
  - rewrite !run_bind, (run_getitem _ _ a) by done.
    rewrite run_bind, run_cat. cbn [heap]. rewrite Hcol.
    rewrite decide_False by by apply Hlabel.
    rewrite run_bind, run_CategoricalDtype by by eapply Hnew.
    rewrite run_bind, (run_Series_astype _ _ col) by done.
    cbn [ret heap self].
    rewrite run_bind, (run_getitem _ _ (length h)).
    2:{ cbn [setitem columns]. rewrite dict_get_set. by rewrite decide_True. }
    rewrite run_bind, run_cat. cbn [heap].
    by rewrite list_lookup_middle.
  - case_decide.
    + rewrite !run_bind, (run_getitem _ _ a) by done.
      rewrite run_bind, run_cat. cbn [heap]. rewrite Hcol.
      rewrite run_bind, run_CategoricalDtype by by eapply Hnew.
      rewrite run_bind, (run_Series_astype _ _ col) by done.
      cbn [ret heap self].
      rewrite run_bind, (run_getitem _ _ (length h)).
      2:{ cbn [setitem columns]. rewrite dict_get_set.
          by rewrite decide_True. }
      rewrite run_bind, run_cat. cbn [heap].
      by rewrite list_lookup_middle.
    + rewrite run_bind. cbn [ret].
      rewrite run_bind, (run_getitem _ _ a) by done.
      rewrite run_bind, run_cat. cbn [heap]. by rewrite Hcol.
Qed.
End fit_spec.

Lemma inferred_categories_elem vs v :
  v ∈ inferred_categories vs ↔ Some v ∈ vs.
Proof.
  unfold inferred_categories.
  rewrite sort_strings_perm, elem_of_remove_dups, list_elem_of_omap.
  split.
  - by intros ([x|] & Hx & [= ->]).
  - intros Hv. by exists (Some v).
Qed.

Lemma inferred_categories_NoDup vs : NoDup (inferred_categories vs).
Proof.
  unfold inferred_categories. rewrite sort_strings_perm.
  apply NoDup_remove_dups.
Qed.

Lemma astype_category_wf s : wf_series s → wf_categorical (astype_category s).
Proof.
  destruct s as [vs|c]; [|done]. intros _. split; cbn.
  - apply inferred_categories_NoDup.
  - apply Forall_forall. intros [v|] Hv; [|done]. cbn.
    by apply inferred_categories_elem.
Qed.

Lemma valid_frame_lookup h X c a :
  valid_frame h X → (c, a) ∈ columns X →
  ∃ s, h !! a = Some s ∧ wf_series s.
Proof.
  intros [_ Hcols] Hca. rewrite Forall_forall in Hcols.
  specialize (Hcols _ Hca). unfold wf_column_at in Hcols. cbn in Hcols.
  destruct (h !! a) as [s|]; [by exists s|done].
Qed.

Section fit_loop.
Context `{SortValues}.

Lemma fit_columns_spec names X_category acc g h :
  NoDup names →
  (ranks g = true → "index" ∉ names) →
  (∀ c, c ∈ names → ∃ a col,
     dict_get (columns X_category) c = Some a ∧
     h !! a = Some (CategorySeries col) ∧ NoDup (categories col)) →
  ∃ X_out acc' ext,
    foldM fit_column (X_category, acc) names {| self := g; heap := h |}
    = (inr (X_out, acc'), {| self := g; heap := h ++ ext |}) ∧
    index X_out = index X_category ∧
    (NoDup (dict_keys acc) → NoDup (dict_keys acc')) ∧
    (∀ c, c ∉ names →
       dict_get acc' c = dict_get acc c ∧
       dict_get (columns X_out) c = dict_get (columns X_category) c) ∧
    (∀ c a col, c ∈ names →
       dict_get (columns X_category) c = Some a →
       h !! a = Some (CategorySeries col) →
       dict_get acc' c = Some (vocabulary g col) ∧
       column_at (h ++ ext) X_out c = Some (CategorySeries (recoded g col))).
Proof.
  intros Hnames. revert X_category acc h.
  induction Hnames as [|c0 names Hc0 Hnames IH]; intros Xc acc h Hlabel Hcols.
  { exists Xc, acc, []. rewrite app_nil_r. split_and!; try done.
    by intros ??? ?%elem_of_nil. }
  destruct (Hcols c0) as (a0 & col0 & Ha0 & Hcol0 & Hnd0); [by left|].
  cbn [foldM]. rewrite run_bind.
  rewrite (run_fit_column _ _ _ a0 col0); [|  |done..].
  2:{ intros Hr ->. apply (Hlabel Hr). by left. }
  set (Xc1 := match new_categories g col0 with
              | Some _ => setitem Xc c0 (length h)
              | None => Xc
              end).
  set (e1 := match new_categories g col0 with
             | Some _ => [CategorySeries (recoded g col0)]
             | None => []
             end).
  replace (match new_categories g col0 with
           | Some _ => h ++ [CategorySeries (recoded g col0)]
           | None => h
           end) with (h ++ e1)
    by (unfold e1; destruct (new_categories g col0);
        [done|by rewrite app_nil_r]).
  assert (index Xc1 = index Xc) as Hindex1.
  { unfold Xc1. by destruct (new_categories g col0). }
  assert (∀ c, c ≠ c0 →
            dict_get (columns Xc1) c = dict_get (columns Xc) c) as Hother.
  { intros c Hc. unfold Xc1. destruct (new_categories g col0); [|done].
    cbn [setitem columns]. rewrite dict_get_set.
    by rewrite decide_False by done. }
  assert (column_at (h ++ e1) Xc1 c0
          = Some (CategorySeries (recoded g col0))) as Hc0_at.
  { unfold column_at, Xc1, e1, recoded.
    destruct (new_categories g col0).
    - cbn [setitem columns]. rewrite dict_get_set, decide_True by done.
      cbn [mbind option_bind]. by rewrite list_lookup_middle.
    - rewrite Ha0, app_nil_r. done. }
  destruct (IH Xc1 (dict_set acc c0 (vocabulary g col0)) (h ++ e1))
    as (X_out & acc' & ext & Hrun & Hindex & Hkeys & Hout & Hin).
  { intros Hr Hin. apply (Hlabel Hr). by right. }
  { intros c Hc. destruct (Hcols c) as (a & col & Ha & Hcol & Hnd);
      [by right|].
    exists a, col. split_and!; [|by apply lookup_app_l_Some|done].
    rewrite Hother; [done|]. by intros ->. }
  exists X_out, acc', (e1 ++ ext). rewrite Hrun, <-app_assoc.
  split_and!.
  - done.
  - by rewrite Hindex.
  - intros Hacc. by apply Hkeys, dict_set_keys_NoDup.
  - intros c [Hc Hcn]%not_elem_of_cons.
    destruct (Hout c Hcn) as [-> ->]. split.
    + rewrite dict_get_set. by rewrite decide_False by done.
    + by apply Hother.
  - intros c a col [->|Hc]%elem_of_cons Ha Hcol.
    + simplify_eq. destruct (Hout c0 Hc0) as [-> Hsame]. split.
      * rewrite dict_get_set. by rewrite decide_True.
      * unfold column_at in *. rewrite Hsame.
        destruct (dict_get (columns Xc1) c0) as [a1|]; [|done].
        cbn [mbind option_bind] in *. rewrite app_assoc.
        by apply lookup_app_l_Some.
    + rewrite app_assoc. apply (Hin c a); [done| |by apply lookup_app_l_Some].
      rewrite Hother; [done|]. by intros ->.
Qed.

(** Fitting on a valid frame succeeds: every column is recorded with
    the vocabulary of its coercion and comes out recoded against it. *)
Lemma _generate_category_map_spec X st :
  features_in (self st) ≠ [] → fit_frame (self st) (heap st) X →
  ∃ X_out cmap ext,
    _generate_category_map X st
    = (inr (X_out, Some cmap),
       {| self := self st; heap := heap st ++ ext |}) ∧
    index X_out = index X ∧
    NoDup (dict_keys cmap) ∧
    (∀ c, c ∉ dict_keys (columns X) → dict_get cmap c = None) ∧
    (∀ c s, column_at (heap st) X c = Some s →
       dict_get cmap c
       = Some (vocabulary (self st) (astype_category s)) ∧
       column_at (heap st ++ ext) X_out c
       = Some (CategorySeries (recoded (self st) (astype_category s)))).
Proof.
  intros Hfeatures [Hvalid Hlabel].
  unfold _generate_category_map. rewrite run_bind. cbn [get_self].
  rewrite decide_True by done. rewrite run_bind.
  unfold DataFrame_astype_category. rewrite run_bind.
  destruct (copy_columns_spec (λ s, CategorySeries (astype_category s))
              (columns X) st)
    as (cols1 & ext1 & -> & Hkeys1 & Hsnd1 & Hlen1 & Hat1).
  { intros c a Hca.
    destruct (valid_frame_lookup _ _ _ _ Hvalid Hca) as (s & Hs & _).
    by eapply lookup_lt_Some. }
  cbn [ret columns]. cbv zeta. rewrite run_bind.
  destruct (fit_columns_spec (dict_keys cols1)
              {| index := index X; columns := cols1 |} []
              (self st) (heap st ++ ext1))
    as (X_out & cmap & ext & -> & Hindex & Hkeys & Hout & Hin).
  { rewrite Hkeys1. apply Hvalid. }
  { by rewrite Hkeys1. }
  { intros c Hc. rewrite Hkeys1 in Hc.
    destruct (dict_get_is_Some _ _ Hc) as [a Ha].
    destruct (valid_frame_lookup _ _ c a Hvalid) as (s & Hs & Hwf);
      [by apply dict_get_elem_of|].
    specialize (Hat1 c). rewrite Ha in Hat1. cbn in Hat1.
    rewrite Hs in Hat1. cbn [columns].
    destruct (dict_get cols1 c) as [a1|]; [|done].
    exists a1, (astype_category s). split_and!; [done..|].
    by apply astype_category_wf. }
  cbn [ret]. exists X_out, cmap, (ext1 ++ ext).
  rewrite <-app_assoc. split_and!; try done.
  - apply Hkeys. apply NoDup_nil_2.
  - intros c Hc. rewrite <-Hkeys1 in Hc. by destruct (Hout c Hc) as [-> _].
  - intros c s Hs. unfold column_at in Hs.
    destruct (dict_get (columns X) c) as [a|] eqn:Ha; [|done].
    cbn in Hs. specialize (Hat1 c). rewrite Ha in Hat1. cbn in Hat1.
    rewrite Hs in Hat1.
    destruct (dict_get cols1 c) as [a1|] eqn:Ha1; [|done].
    cbn in Hat1. rewrite app_assoc. apply (Hin c a1); [|done..].
    by eapply dict_get_keys.
Qed.
End fit_loop.

Lemma filter_ext_elem {A} (P Q : A → Prop)
    `{∀ x, Decision (P x), ∀ x, Decision (Q x)} (l : list A) :
  (∀ x, x ∈ l → P x ↔ Q x) → filter P l = filter Q l.
Proof.
  induction l as [|x l IH]; intros HPQ; [done|].
  rewrite !filter_cons.
  rewrite IH by (intros y Hy; apply HPQ; by right).
  destruct (decide (P x)) as [HP|HP], (decide (Q x)) as [HQ|HQ]; try done.
  - destruct HQ. apply HPQ; [by left|done].
  - destruct HP. apply HPQ; [by left|done].
Qed.

Lemma astype_category_values s : values (astype_category s) = series_values s.
Proof. by destruct s. Qed.

Section fitted.
Context `{SortValues}.

(** What fitting records for a column of a valid frame. *)
Lemma fitted_vocabulary_spec X c s st :
  _stateful_categories (self st) = true →
  features_in (self st) ≠ [] →
  fit_frame (self st) (heap st) X →
  column_at (heap st) X c = Some s →
  fitted_vocabulary X c st
  = Some (vocabulary (self st) (astype_category s)).
Proof.
  intros Hstateful Hfeatures Hvalid Hs.
  destruct (_generate_category_map_spec X st Hfeatures Hvalid)
    as (X_out & cmap & ext & Hrun & _ & _ & _ & Hcols).
  destruct (Hcols c s Hs) as [Hvoc _].
  unfold fitted_vocabulary, _fit_transform.
  rewrite run_bind. cbn [get_self]. rewrite Hstateful.
  rewrite !run_bind, Hrun. cbn [set_category_map]. by rewrite run_bind.
Qed.

Lemma features_in_nonempty c st :
  c ∈ features_in (self st) → features_in (self st) ≠ [].
Proof. intros Hc Hnil. rewrite Hnil in Hc. by apply elem_of_nil in Hc. Qed.
End fitted.

(** The scenarios of the specification: the column a, a, b, c, c, c.
    Without a filter the ranked list b, a, c holds all the categories,
    the dtype made of it equals the column's, and the categories stay
    a, b, c. *)
Example scenario_count :
  @fitted_vocabulary stable_kind (example_frame ["a"; "a"; "b"; "c"; "c"; "c"])
    "c" (example_state (example_generator true "count" None None)
           ["a"; "a"; "b"; "c"; "c"; "c"])
  = Some ["a"; "b"; "c"].
Proof. reflexivity. Qed.

Example scenario_minimum_count :
  @fitted_vocabulary stable_kind (example_frame ["a"; "a"; "b"; "c"; "c"; "c"])
    "c" (example_state (example_generator true "count" (Some 2%Z) None)
           ["a"; "a"; "b"; "c"; "c"; "c"])
  = Some ["a"; "c"].
Proof. reflexivity. Qed.

Example scenario_maximum_one :
  @fitted_vocabulary stable_kind (example_frame ["a"; "a"; "b"; "c"; "c"; "c"])
    "c" (example_state (example_generator true "count" None (Some 1%Z))
           ["a"; "a"; "b"; "c"; "c"; "c"])
  = Some ["c"].
Proof. reflexivity. Qed.

(** ** Order of the vocabulary under [cat_order='original'] *)

(** C1, as stated, does not hold: fitted on the object column b, a with
    [cat_order='original'] and no filter, the generator records a, b, the
    sorted categories of the coercion, while the order of first occurrence
    is b, a. *)
Lemma C1_first_occurrence_counterexample :
  ¬ (∀ (S : SortValues) st X c s voc,
       cat_order (self st) = "original" →
       _stateful_categories (self st) = true →
       c ∈ features_in (self st) →
       fit_frame (self st) (heap st) X →
       column_at (heap st) X c = Some s →
       fitted_vocabulary X c st = Some voc →
       voc = filter (λ v, v ∈ voc) (first_occurrence (series_values s))).
Proof.
  intros Hclaim.
  specialize (Hclaim stable_kind
    (example_state (example_generator true "original" None None) ["b"; "a"])
    (example_frame ["b"; "a"]) "c" (ObjectSeries [Some "b"; Some "a"])
    ["a"; "b"]).
  discriminate Hclaim; try reflexivity.
  - by left.
  - by_compute.
Qed.

Lemma valid_frame_column h X c s :
  valid_frame h X → column_at h X c = Some s → wf_series s.
Proof.
  intros Hvalid Hs. unfold column_at in Hs.
  destruct (dict_get (columns X) c) as [a|] eqn:Ha; [|done].
  apply dict_get_elem_of in Ha.
  destruct (valid_frame_lookup _ _ _ _ Hvalid Ha) as (s' & Hs' & Hwf).
  cbn in Hs. congruence.
Qed.

(** C1 (amended): with [cat_order='original'], on a table that has no
    column labelled [index] when a filter is set, the vocabulary recorded
    for a column lists the surviving values in the order of the categories
    of the column's categorical coercion.  Without a filter it is exactly
    these categories.  For an object column the categories are inferred from the
    data and sorted, so the vocabulary is in lexicographic order; a column
    that is already categorical keeps its own category order. *)
Theorem C1_original_follows_categories `{SortValues} st X c s :
  cat_order (self st) = "original" →
  _stateful_categories (self st) = true →
  c ∈ features_in (self st) →
  fit_frame (self st) (heap st) X →
  column_at (heap st) X c = Some s →
  ∃ voc, fitted_vocabulary X c st = Some voc ∧
    voc = filter (λ v, v ∈ voc) (categories (astype_category s)) ∧
    (ranks (self st) = true →
     voc = filter (λ v, v ∈ (rank (self st) (astype_category s)).*1)
             (categories (astype_category s))) ∧
    (ranks (self st) = false → voc = categories (astype_category s)) ∧
    (∀ vs, s = ObjectSeries vs →
       categories (astype_category s) = inferred_categories vs ∧
       StronglySorted str_le voc).
Proof.
  intros Horder Hstateful Hc Hframe Hs.
  pose proof Hframe as [Hvalid _].
  pose proof (astype_category_wf s (valid_frame_column _ _ _ _ Hvalid Hs))
    as [Hnd _].
  exists (vocabulary (self st) (astype_category s)).
  split; [by eapply fitted_vocabulary_spec, Hs;
            [|eapply features_in_nonempty|]|].
  rewrite (vocabulary_original _ _ Horder Hnd).
  split_and!.
  - destruct (ranks (self st)).
    + apply filter_ext_elem. intros v Hv. rewrite list_elem_of_filter.
      tauto.
    + symmetry. by apply filter_all.
  - by intros ->.
  - by intros ->.
  - intros vs ->. split; [done|]. cbn [astype_category categories].
    destruct (ranks (self st)).
    + apply sorted_filter, sort_strings_sorted.
    + apply sort_strings_sorted.
Qed.

Lemma C1_original_follows_categories_witness :
  ∃ voc,
    @fitted_vocabulary stable_kind (example_frame ["b"; "a"]) "c"
      (example_state (example_generator true "original" None None) ["b"; "a"])
    = Some voc ∧
    voc = filter (λ v, v ∈ voc)
            (categories (astype_category (ObjectSeries [Some "b"; Some "a"]))) ∧
    (@ranks (example_generator true "original" None None) = true →
     voc = filter
             (λ v, v ∈ (@rank stable_kind
                          (example_generator true "original" None None)
                          (astype_category
                             (ObjectSeries [Some "b"; Some "a"]))).*1)
             (categories (astype_category (ObjectSeries [Some "b"; Some "a"])))) ∧
    (@ranks (example_generator true "original" None None) = false →
     voc = categories (astype_category (ObjectSeries [Some "b"; Some "a"]))) ∧
    (∀ vs, ObjectSeries [Some "b"; Some "a"] = ObjectSeries vs →
       categories (astype_category (ObjectSeries [Some "b"; Some "a"]))
       = inferred_categories vs ∧
       StronglySorted str_le voc).
Proof.
  apply (@C1_original_follows_categories stable_kind
           (example_state (example_generator true "original" None None)
              ["b"; "a"])
           (example_frame ["b"; "a"]) "c" (ObjectSeries [Some "b"; Some "a"]));
    [reflexivity|reflexivity|by_compute|by_compute|reflexivity].
Defined.

(** ** Lexicographic order under [cat_order='alphanumeric'] *)

Lemma new_categories_subseteq `{SortValues} self c l :
  new_categories self c = Some l → l ⊆ categories c.
Proof.
  unfold new_categories. destruct (ranks self).
  - intros [= <-] v Hv. unfold category_list in Hv.
    repeat case_decide.
    + by apply list_elem_of_filter in Hv as [_ ?].
    + rewrite sort_strings_perm in Hv. by eapply rank_fst_subseteq.
    + by eapply rank_fst_subseteq.
    + by eapply rank_fst_subseteq.
  - case_decide; [|done]. intros [= <-] v. by rewrite sort_strings_perm.
Qed.


(** C4, as stated, does not hold of the code: fitted with
    [cat_order='alphanumeric'] and no filter on a categorical column whose
    categories are c, a, b, the generator records c, a, b.  The sorted
    list a, b, c holds the same categories, so the dtype made of it equals
    the column's dtype and [astype] returns the column as it is. *)
Theorem C4_alphanumeric_order_not_imposed :
  @fitted_vocabulary stable_kind
    {| index := [0; 1; 2]%Z; columns := [("c", 0)] |} "c"
    {| self :=
         {| _stateful_categories := true; cat_order := "alphanumeric";
            _minimum_cat_count := None; _maximum_num_cat := None;
            category_map := None;
            post_generators := [CategoryMemoryMinimizeFeatureGenerator true];
            features_in := ["c"];
            feature_metadata_in :=
              {| type_group_map_raw := [("category", ["c"])];
                 type_group_map_special := [] |} |};
       heap := [CategorySeries
                  {| categories := ["c"; "a"; "b"];
                     values := [Some "c"; Some "a"; Some "b"] |}] |}
  = Some ["c"; "a"; "b"] ∧
  ¬ StronglySorted str_le ["c"; "a"; "b"].
Proof.
  split; [reflexivity|]. intros Hsorted.
  apply StronglySorted_inv in Hsorted as [_ Hle].
  apply Forall_cons in Hle as [Hca _]. by vm_compute in Hca.
Qed.



(** ** Minimum count and maximum number of categories *)

Lemma frequency_pos v vs : 0 < frequency v vs → Some v ∈ vs.
Proof.
  unfold frequency. induction vs as [|x vs IH]; [simpl; intros ?; lia|].
  rewrite filter_cons. case_decide as Hx.
  - intros _. subst x. by left.
  - intros Hpos. right. by apply IH.
Qed.

Lemma wf_categorical_elem c v :
  wf_categorical c → Some v ∈ values c → v ∈ categories c.
Proof.
  intros [_ Hcells] Hv. rewrite Forall_forall in Hcells.
  by apply Hcells in Hv.
Qed.

Lemma slice_from_zero {A} (l : list A) : slice_from 0 l = l.
Proof.
  unfold slice_from. cbn. by rewrite Z.min_l by lia.
Qed.

Lemma slice_from_last {A} (n : Z) (l : list A) :
  (0 < n)%Z →
  slice_from (- n) l = drop (length l - Z.to_nat n) l ∧
  (Z.of_nat (length (slice_from (- n) l)) ≤ n)%Z.
Proof.
  intros Hn. unfold slice_from.
  rewrite (proj2 (Z.ltb_lt _ _)) by lia.
  replace (Z.to_nat (Z.max 0 (- n + Z.of_nat (length l))))
    with (length l - Z.to_nat n) by lia.
  split; [done|]. rewrite length_drop. lia.
Qed.

Section filters.
Context `{SortValues}.
Implicit Types (self : CategoryFeatureGenerator) (c : Categorical).

Lemma elem_of_ranking c p :
  p ∈ ranking c ↔ p.1 ∈ categories c ∧ p.2 = frequency p.1 (values c).
Proof. by rewrite ranking_perm, elem_of_category_counts. Qed.

Lemma rank_unfold self c :
  rank self c
  = at_most (_maximum_num_cat self)
      (at_least (_minimum_cat_count self) (ranking c)).
Proof. done. Qed.

Lemma ranks_filtered self :
  _minimum_cat_count self ≠ None ∨ _maximum_num_cat self ≠ None →
  ranks self = true.
Proof.
  unfold ranks. intros [Hmin|Hmax].
  - rewrite (bool_decide_eq_true_2 (_minimum_cat_count self ≠ None)) by done.
    by rewrite orb_true_r.
  - rewrite (bool_decide_eq_true_2 (_maximum_num_cat self ≠ None)) by done.
    by rewrite orb_true_r.
Qed.

(** With a maximum [n] of at least one, the vocabulary is made of the
    last [n] entries of the ranking that passed the minimum count, all
    of them when there are fewer, and holds at most [n] values. *)
Lemma vocabulary_maximum_positive self c n :
  _maximum_num_cat self = Some n → (0 < n)%Z → NoDup (categories c) →
  let survivors := at_least (_minimum_cat_count self) (ranking c) in
  vocabulary self c
  ≡ₚ (drop (length survivors - Z.to_nat n) survivors).*1 ∧
  (Z.of_nat (length (vocabulary self c)) ≤ n)%Z.
Proof.
  intros Hmax Hn Hnd survivors.
  rewrite vocabulary_ranked
    by first [done|apply ranks_filtered; right; congruence].
  rewrite category_list_perm, rank_unfold, Hmax by done. cbn [at_most].
  fold survivors. destruct (slice_from_last n survivors Hn) as [-> Hlen].
  split; [done|]. by rewrite length_fmap.
Qed.
End filters.

(** C3 fails on the code for a column labelled [index].  Fitted with
    [minimum_cat_count=2] on the column a, a, b, c, c, c under that label,
    the generator reads the counts 2, 3 where it means to read the values
    a, c, finds none of the categories among them and records the empty
    vocabulary, although a and c occur at least twice. *)
Theorem C3_index_column_loses_frequent_values :
  @fitted_vocabulary stable_kind
    {| index := [0; 1; 2; 3; 4; 5]%Z; columns := [("index", 0)] |} "index"
    {| self :=
         {| _stateful_categories := true; cat_order := "original";
            _minimum_cat_count := Some 2%Z; _maximum_num_cat := None;
            category_map := None;
            post_generators := [CategoryMemoryMinimizeFeatureGenerator true];
            features_in := ["index"];
            feature_metadata_in :=
              {| type_group_map_raw := [("object", ["index"])];
                 type_group_map_special := [] |} |};
       heap := [ObjectSeries (Some <$> ["a"; "a"; "b"; "c"; "c"; "c"])] |}
  = Some [] ∧
  (2 ≤ Z.of_nat (frequency "a" (Some <$> ["a"; "a"; "b"; "c"; "c"; "c"])))%Z ∧
  (2 ≤ Z.of_nat (frequency "c" (Some <$> ["a"; "a"; "b"; "c"; "c"; "c"])))%Z.
Proof. split_and!; [reflexivity|by vm_compute..]. Qed.

(** X18: on a table with no column labelled [index], with
    [minimum_cat_count=k], [k > 1], no value that occurs fewer than [k]
    times in the fitting column is in the vocabulary; every value that
    occurs at least [k] times passes the minimum-count filter, and the
    vocabulary is what the cut to [maximum_num_cat] leaves of the values
    that passed: all of them when no maximum is set. *)
Theorem X18_minimum_cat_count `{SortValues} st X c s k :
  _minimum_cat_count (self st) = Some k → (1 < k)%Z →
  _stateful_categories (self st) = true →
  c ∈ features_in (self st) →
  fit_frame (self st) (heap st) X →
  column_at (heap st) X c = Some s →
  ∃ voc survivors,
    fitted_vocabulary X c st = Some voc ∧
    survivors = at_least (Some k) (ranking (astype_category s)) ∧
    (∀ v, (Z.of_nat (frequency v (series_values s)) < k)%Z → v ∉ voc) ∧
    (∀ v, (k ≤ Z.of_nat (frequency v (series_values s)))%Z →
       v ∈ survivors.*1) ∧
    voc ≡ₚ (at_most (_maximum_num_cat (self st)) survivors).*1 ∧
    (_maximum_num_cat (self st) = None →
     ∀ v, (k ≤ Z.of_nat (frequency v (series_values s)))%Z → v ∈ voc).
Proof.
  intros Hmin Hk Hstateful Hc Hframe Hs.
  pose proof Hframe as [Hvalid _].
  pose proof (astype_category_wf s (valid_frame_column _ _ _ _ Hvalid Hs))
    as Hwf.
  set (survivors := at_least (Some k) (ranking (astype_category s))).
  exists (vocabulary (self st) (astype_category s)), survivors.
  split; [by eapply fitted_vocabulary_spec, Hs;
            [|eapply features_in_nonempty|]|].
  split; [done|].
  assert (vocabulary (self st) (astype_category s)
          ≡ₚ (at_most (_maximum_num_cat (self st)) survivors).*1) as Hperm.
  { rewrite vocabulary_ranked
      by first [apply Hwf|apply ranks_filtered; left; congruence].
    rewrite category_list_perm by apply Hwf. by rewrite rank_unfold, Hmin. }
  assert (∀ v, (k ≤ Z.of_nat (frequency v (series_values s)))%Z →
            v ∈ survivors.*1) as Hpass.
  { intros v Hv. apply list_elem_of_fmap.
    exists (v, frequency v (series_values s)). split; [done|].
    unfold survivors. cbn [at_least]. apply list_elem_of_filter.
    split; [done|]. apply elem_of_ranking. cbn [fst snd].
    rewrite astype_category_values. split; [|done].
    apply wf_categorical_elem; [done|]. rewrite astype_category_values.
    apply frequency_pos. lia. }
  split_and!; try done.
  - intros v Hv. rewrite Hperm.
    intros (p & -> & Hp)%list_elem_of_fmap.
    apply (sublist_subseteq _ _ (at_most_sublist _ _)) in Hp.
    unfold survivors in Hp. cbn [at_least] in Hp.
    apply list_elem_of_filter in Hp as [Hle Hp].
    apply elem_of_ranking in Hp as [_ Hfreq].
    rewrite astype_category_values in Hfreq. lia.
  - intros Hmax v Hv. rewrite Hperm, Hmax. by apply Hpass.
Qed.

Lemma X18_minimum_cat_count_witness :
  ∃ voc survivors,
    @fitted_vocabulary stable_kind
      (example_frame ["a"; "a"; "b"; "c"; "c"; "c"]) "c"
      (example_state (example_generator true "original" (Some 2%Z) None)
         ["a"; "a"; "b"; "c"; "c"; "c"])
    = Some voc ∧
    survivors
    = at_least (Some 2%Z)
        (@ranking stable_kind
           (astype_category
              (ObjectSeries (Some <$> ["a"; "a"; "b"; "c"; "c"; "c"])))) ∧
    (∀ v, (Z.of_nat (frequency v (Some <$> ["a"; "a"; "b"; "c"; "c"; "c"])) < 2)%Z
          → v ∉ voc) ∧
    (∀ v, (2 ≤ Z.of_nat (frequency v (Some <$> ["a"; "a"; "b"; "c"; "c"; "c"])))%Z
          → v ∈ survivors.*1) ∧
    voc ≡ₚ (at_most None survivors).*1 ∧
    (@None Z = None →
     ∀ v, (2 ≤ Z.of_nat (frequency v (Some <$> ["a"; "a"; "b"; "c"; "c"; "c"])))%Z
          → v ∈ voc).
Proof.
  refine (@X18_minimum_cat_count stable_kind
            (example_state (example_generator true "original" (Some 2%Z) None)
               ["a"; "a"; "b"; "c"; "c"; "c"])
            (example_frame ["a"; "a"; "b"; "c"; "c"; "c"]) "c"
            (ObjectSeries (Some <$> ["a"; "a"; "b"; "c"; "c"; "c"])) 2%Z
            _ _ _ _ _ _);
    [reflexivity|lia|reflexivity|by_compute|by_compute|reflexivity].
Defined.

(** C2 fails on the code at [maximum_num_cat=0]: the slice [rank[-0:]] is
    the whole ranking, and fitted on the column a, b the generator records
    two values under a maximum of zero. *)
Theorem C2_maximum_zero_exceeded :
  ∃ voc,
    @fitted_vocabulary stable_kind (example_frame ["a"; "b"]) "c"
      (example_state (example_generator true "original" None (Some 0%Z))
         ["a"; "b"])
    = Some voc ∧
    voc = ["a"; "b"] ∧ (0 < Z.of_nat (length voc))%Z.
Proof. exists ["a"; "b"]. split; [reflexivity|]. split; [done|]. simpl. lia. Qed.

(** C10: with [maximum_num_cat=0] the cut keeps the whole ranking that
    passed the minimum count, so the vocabulary has as many values as
    passed it (as many as the column has categories when no minimum count
    is set); on the column a, b it has two values, more than the maximum
    of zero. *)
Theorem C10_zero_maximum_not_applied `{SortValues} st X c s :
  _maximum_num_cat (self st) = Some 0%Z →
  _stateful_categories (self st) = true →
  c ∈ features_in (self st) →
  fit_frame (self st) (heap st) X →
  column_at (heap st) X c = Some s →
  rank (self st) (astype_category s)
  = at_least (_minimum_cat_count (self st)) (ranking (astype_category s)) ∧
  (∃ voc, fitted_vocabulary X c st = Some voc ∧
     voc ≡ₚ (at_least (_minimum_cat_count (self st))
               (ranking (astype_category s))).*1 ∧
     (_minimum_cat_count (self st) = None →
      length voc = length (categories (astype_category s)))) ∧
  (∃ voc,
     @fitted_vocabulary stable_kind (example_frame ["a"; "b"]) "c"
       (example_state (example_generator true "original" None (Some 0%Z))
          ["a"; "b"])
     = Some voc ∧ (0 < Z.of_nat (length voc))%Z).
Proof.
  intros Hmax Hstateful Hc Hframe Hs.
  pose proof Hframe as [Hvalid _].
  pose proof (astype_category_wf s (valid_frame_column _ _ _ _ Hvalid Hs))
    as [Hnd _].
  assert (rank (self st) (astype_category s)
          = at_least (_minimum_cat_count (self st))
              (ranking (astype_category s))) as Hrank.
  { rewrite rank_unfold, Hmax. cbn [at_most]. apply slice_from_zero. }
  split_and!.
  - done.
  - exists (vocabulary (self st) (astype_category s)).
    split; [by eapply fitted_vocabulary_spec, Hs;
              [|eapply features_in_nonempty|]|].
    rewrite vocabulary_ranked
    by first [done|apply ranks_filtered; right; congruence].
    rewrite category_list_perm, Hrank by done. split; [done|].
    intros ->. cbn [at_least].
    by rewrite ranking_perm, category_counts_fst.
  - exists ["a"; "b"]. split; [reflexivity|]. simpl. lia.
Qed.

Lemma C10_zero_maximum_not_applied_witness :
  @rank stable_kind (example_generator true "original" None (Some 0%Z))
    (astype_category (ObjectSeries (Some <$> ["a"; "b"])))
  = at_least None
      (@ranking stable_kind
         (astype_category (ObjectSeries (Some <$> ["a"; "b"])))) ∧
  (∃ voc,
     @fitted_vocabulary stable_kind (example_frame ["a"; "b"]) "c"
       (example_state (example_generator true "original" None (Some 0%Z))
          ["a"; "b"])
     = Some voc ∧
     voc ≡ₚ (at_least None
               (@ranking stable_kind
                  (astype_category (ObjectSeries (Some <$> ["a"; "b"]))))).*1 ∧
     (@None Z = None →
      length voc
      = length (categories
                  (astype_category (ObjectSeries (Some <$> ["a"; "b"])))))) ∧
  (∃ voc,
     @fitted_vocabulary stable_kind (example_frame ["a"; "b"]) "c"
       (example_state (example_generator true "original" None (Some 0%Z))
          ["a"; "b"])
     = Some voc ∧ (0 < Z.of_nat (length voc))%Z).
Proof.
  refine (@C10_zero_maximum_not_applied stable_kind
            (example_state (example_generator true "original" None (Some 0%Z))
               ["a"; "b"])
            (example_frame ["a"; "b"]) "c"
            (ObjectSeries (Some <$> ["a"; "b"])) _ _ _ _ _);
    [reflexivity|reflexivity|by_compute|by_compute|reflexivity].
Defined.

(** ** The frequency ranking *)

Lemma insert_count_ties p s n :
  filter (λ q : string * nat, q.2 = n) (insert_count p s)
  = filter (λ q : string * nat, q.2 = n) (p :: s).
Proof.
  induction s as [|q s IH]; [done|]. cbn [insert_count].
  case_decide as Hle; [done|].
  rewrite filter_cons, IH, !filter_cons.
  repeat case_decide; try done. lia.
Qed.

Lemma insertion_sort_ties s n :
  filter (λ q : string * nat, q.2 = n) (insertion_sort s)
  = filter (λ q : string * nat, q.2 = n) s.
Proof.
  induction s as [|p s IH]; [done|]. cbn [insertion_sort foldr].
  fold (insertion_sort s). by rewrite insert_count_ties, !filter_cons, IH.
Qed.

(** C5, as stated, does not hold: the generator sorts with the default
    kind, and a sort of that kind may reorder ties.  On a column of
    eighteen values that occur once each, the quicksort gives the ranking
    the values in another order than the count computation did. *)
Lemma C5_ties_counterexample :
  ¬ (∀ (S : SortValues) c n,
       filter (λ p : string * nat, p.2 = n) (ranking c)
       = filter (λ p : string * nat, p.2 = n) (value_counts c)).
Proof.
  intros Hclaim.
  specialize (Hclaim quicksort_kind
    (astype_category
       (ObjectSeries
          (Some <$> ["a"; "b"; "c"; "d"; "e"; "f"; "g"; "h"; "i"; "j"; "k";
                     "l"; "m"; "n"; "o"; "p"; "q"; "r"]))) 1).
  vm_compute in Hclaim. discriminate Hclaim.
Qed.

(** C5 (amended): the ranking lists every category once with its count,
    in ascending order of count, and stays in ascending order through the
    minimum-count filter and the cut.  The order among values of equal
    count is the one the sorting algorithm gives: under a stable sort they
    keep their relative order from the count computation, which the
    default kind of [sort_values] does not promise. *)
Theorem C5_ranking_ascending `{SortValues} self c :
  ranking c ≡ₚ category_counts c ∧
  StronglySorted (count_order true) (ranking c) ∧
  StronglySorted (count_order true) (rank self c) ∧
  ∀ n, filter (λ p : string * nat, p.2 = n) (@ranking stable_kind c)
       = filter (λ p : string * nat, p.2 = n) (@value_counts stable_kind c).
Proof.
  split_and!.
  - apply ranking_perm.
  - apply ranking_sorted.
  - apply rank_sorted.
  - intros n. unfold ranking. cbn [sort_values stable_kind directed].
    apply insertion_sort_ties.
Qed.

(** ** Applying the category map *)

Lemma dict_elem_of_get {V} (d : dict V) k v :
  NoDup (dict_keys d) → (k, v) ∈ d → dict_get d k = Some v.
Proof.
  unfold dict_keys. induction d as [|[k' v'] d IH]; [by intros _ ?%elem_of_nil|].
  rewrite fmap_cons. intros [Hk' Hd]%NoDup_cons [Heq|Hin]%elem_of_cons.
  - injection Heq as -> ->. cbn. by rewrite decide_True.
  - cbn. case_decide as Hk; [|by apply IH]. subst. destruct Hk'.
    apply list_elem_of_fmap. by exists (k, v).
Qed.

Lemma wf_category_map_NoDup m c voc :
  wf_category_map m → dict_get m c = Some voc → NoDup voc.
Proof.
  intros [_ Hvocs] Hget%dict_get_elem_of. rewrite Forall_forall in Hvocs.
  by apply Hvocs in Hget.
Qed.

Lemma valid_frame_addresses h X c a :
  valid_frame h X → (c, a) ∈ columns X → a < length h.
Proof.
  intros Hvalid Hca.
  destruct (valid_frame_lookup _ _ _ _ Hvalid Hca) as (s & Hs & _).
  by eapply lookup_lt_Some.
Qed.

(** C6: applying a fitted map to a table that holds the mapped columns
    raises nothing, and in a mapped column every cell whose value is not in
    the column's vocabulary comes out as the missing marker (the other
    cells keep their value). *)
Theorem C6_unseen_value_becomes_missing st X cmap c voc s :
  features_in (self st) ≠ [] →
  category_map (self st) = Some cmap →
  wf_category_map cmap →
  Forall (λ column, column ∈ dict_keys (columns X)) (dict_keys cmap) →
  valid_frame (heap st) X →
  dict_get cmap c = Some voc →
  column_at (heap st) X c = Some s →
  ∃ X_out st' out,
    _transform X st = (inr X_out, st') ∧
    column_at (heap st') X_out c = Some (CategorySeries out) ∧
    categories out = voc ∧
    values out = recode_cell voc <$> series_values s ∧
    ∀ i v, series_values s !! i = Some (Some v) → v ∉ voc →
      values out !! i = Some None.
Proof.
  intros Hfeatures Hmap Hwf Hpresent Hvalid Hvoc Hs.
  destruct (_generate_features_category_spec X st cmap)
    as (X_out & st' & Hrun & _ & _ & Hcols); try done.
  { apply Hwf. }
  { intros ??. by eapply wf_category_map_NoDup. }
  { by apply Forall_forall. }
  { intros ??. by apply valid_frame_addresses. }
  specialize (Hcols c s Hs). rewrite Hvoc in Hcols.
  exists X_out, st', (set_categories voc (astype_category s)).
  split_and!; try done.
  - cbn [set_categories values]. by rewrite astype_category_values.
  - intros i v Hi Hv. cbn [set_categories values].
    rewrite list_lookup_fmap, astype_category_values, Hi.
    cbn [fmap option_fmap option_map recode_cell]. by rewrite decide_False.
Qed.

Lemma C6_unseen_value_becomes_missing_witness :
  ∃ X_out st' out,
    _transform (example_frame ["a"; "z"; "c"])
      {| self :=
           {| _stateful_categories := true; cat_order := "count";
              _minimum_cat_count := None; _maximum_num_cat := None;
              category_map := Some [("c", ["b"; "a"; "c"])];
              post_generators := []; features_in := ["c"];
              feature_metadata_in :=
                {| type_group_map_raw := []; type_group_map_special := [] |} |};
         heap := [ObjectSeries [Some "a"; Some "z"; Some "c"]] |}
    = (inr X_out, st') ∧
    column_at (heap st') X_out "c" = Some (CategorySeries out) ∧
    categories out = ["b"; "a"; "c"] ∧
    values out
    = recode_cell ["b"; "a"; "c"]
        <$> series_values (ObjectSeries [Some "a"; Some "z"; Some "c"]) ∧
    ∀ i v,
      series_values (ObjectSeries [Some "a"; Some "z"; Some "c"]) !! i
      = Some (Some v) →
      v ∉ ["b"; "a"; "c"] → values out !! i = Some None.
Proof.
  refine (C6_unseen_value_becomes_missing _
            (example_frame ["a"; "z"; "c"]) [("c", ["b"; "a"; "c"])] "c"
            ["b"; "a"; "c"] (ObjectSeries [Some "a"; Some "z"; Some "c"])
            _ _ _ _ _ _ _);
    [done|reflexivity|by_compute|by_compute|by_compute|reflexivity|reflexivity].
Defined.

(** C7: a transform leaves the generator as it was, its category map
    included, and changes no column object that existed before the call,
    the caller's among them; the columns of the table it returns are
    objects created during the call. *)
Theorem C7_transform_leaves_state X st :
  self (_transform X st).2 = self st ∧
  category_map (self (_transform X st).2) = category_map (self st) ∧
  heap st `prefix_of` heap (_transform X st).2 ∧
  match (_transform X st).1 with
  | inr X_out =>
      Forall (λ p : string * nat,
                length (heap st) ≤ p.2 < length (heap (_transform X st).2))
        (columns X_out)
  | inl _ => True
  end.
Proof.
  unfold _transform.
  destruct (_generate_features_category X st) as [r st'] eqn:Hrun.
  apply _generate_features_category_frame in Hrun as (Hself & Hprefix & Hfresh).
  cbn [fst snd]. split_and!; [done|by rewrite Hself|done|].
  destruct r as [e|X_out]; [done|].
  apply Forall_forall. intros [c a] Hca. by eapply Hfresh.
Qed.

(** ** Construction *)

(** C8: construction fails exactly when [cat_order] is none of original,
    alphanumeric, count; the failure is a [ValueError] whose message names
    the three allowed values and the value given; with an allowed value
    construction succeeds whatever the other arguments are. *)
Theorem C8_cat_order_validated super_init stateful_categories minimize_memory
    order minimum_cat_count maximum_num_cat :
  match __init__ super_init stateful_categories minimize_memory order
          minimum_cat_count maximum_num_cat with
  | inl e =>
      (order ∉ allowed_cat_order) ∧
      e = ValueError
            ("cat_order must be one of ['original', 'alphanumeric', 'count'], but was: "
             +:+ order) ∧
      Forall (λ allowed,
                ∃ before after, e = ValueError (before +:+ allowed +:+ after))
        allowed_cat_order
  | inr g =>
      order ∈ allowed_cat_order ∧ cat_order g = order ∧
      _stateful_categories g = stateful_categories ∧ category_map g = None
  end.
Proof.
  unfold __init__. case_decide as Horder.
  - split_and!; [done..|]. unfold allowed_cat_order.
    repeat apply Forall_cons_2; [| | |apply Forall_nil_2].
    + by exists "cat_order must be one of ['",
        ("', 'alphanumeric', 'count'], but was: " +:+ order).
    + by exists "cat_order must be one of ['original', '",
        ("', 'count'], but was: " +:+ order).
    + by exists "cat_order must be one of ['original', 'alphanumeric', '",
        ("'], but was: " +:+ order).
  - split_and!; [|done..]. by destruct (decide (order ∈ allowed_cat_order)).
Qed.

(** ** Stateless mode *)

Lemma column_at_prefix h h' X c s :
  h `prefix_of` h' → column_at h X c = Some s → column_at h' X c = Some s.
Proof.
  unfold column_at. intros Hprefix.
  destruct (dict_get (columns X) c) as [a|]; [|done]. cbn.
  intros Hs. by eapply prefix_lookup_Some.
Qed.

Lemma valid_frame_prefix h h' X :
  h `prefix_of` h' → valid_frame h X → valid_frame h' X.
Proof.
  intros Hprefix [Hnames Hcols]. split; [done|].
  eapply Forall_impl; [exact Hcols|]. intros [c a]. unfold wf_column_at. cbn.
  destruct (h !! a) as [s|] eqn:Hs; [|done].
  by rewrite (prefix_lookup_Some _ _ _ _ Hs Hprefix).
Qed.

Section stateless.
Context `{SortValues}.

Lemma stateless_fit_transform_spec X st :
  _stateful_categories (self st) = false →
  category_map (self st) = None →
  valid_frame (heap st) X →
  ∃ X_out meta ext,
    _fit_transform X st
    = (inr (X_out, meta), {| self := self st; heap := heap st ++ ext |}) ∧
    coerced (heap st) (heap st ++ ext) (features_in (self st)) X X_out.
Proof.
  intros Hstateless Hmap Hvalid.
  unfold _fit_transform. rewrite run_bind. cbn [get_self].
  rewrite Hstateless, run_bind.
  unfold _transform, _generate_features_category.
  rewrite run_bind. cbn [get_self]. case_decide as Hfeatures.
  - rewrite run_bind. unfold DataFrame_astype_category. rewrite run_bind.
    destruct (copy_columns_spec (λ s, CategorySeries (astype_category s))
                (columns X) st)
      as (cols1 & ext1 & -> & Hkeys1 & _ & _ & Hat1).
    { intros ??. by apply valid_frame_addresses. }
    cbn [ret]. rewrite Hmap. cbn [ret]. rewrite run_bind. cbn [get_self ret].
    eexists _, _, ext1. split; [done|]. split_and!; [done..|].
    intros _. split; [done|]. intros c s Hs. unfold column_at in *.
    cbn [columns]. by rewrite Hat1, Hs.
  - cbn [ret]. rewrite run_bind. cbn [get_self ret].
    eexists _, _, []. rewrite app_nil_r. split; [by destruct st|].
    split_and!; [done..|]. intros Hne. destruct Hfeatures. done.
Qed.

(** C9: a generator that is not stateful and holds no category map, as
    construction with [stateful_categories=False] leaves it, stays so
    through any number of fits: each fit succeeds, leaves the generator
    unchanged, and returns the categorical coercion of its own input. *)
Theorem C9_stateless_fits Xs st :
  _stateful_categories (self st) = false →
  category_map (self st) = None →
  Forall (valid_frame (heap st)) Xs →
  ∃ outs st',
    fits Xs st = (inr outs, st') ∧
    self st' = self st ∧
    category_map (self st') = None ∧
    heap st `prefix_of` heap st' ∧
    Forall2 (coerced (heap st) (heap st') (features_in (self st))) Xs outs.
Proof.
  intros Hstateless Hmap Hvalid. revert st Hstateless Hmap Hvalid.
  induction Xs as [|X Xs IH]; intros st Hstateless Hmap Hvalid.
  { exists [], st. by split_and!. }
  apply Forall_cons in Hvalid as [HX HXs].
  destruct (stateless_fit_transform_spec X st Hstateless Hmap HX)
    as (X_out & meta & ext & Hrun & Hout).
  set (st1 := {| self := self st; heap := heap st ++ ext |}) in *.
  destruct (IH st1) as (outs & st' & Hruns & Hself & Hmap' & Hprefix & Houts);
    [done..| |].
  { eapply Forall_impl; [exact HXs|]. intros X'.
    apply valid_frame_prefix. by apply prefix_app_r. }
  exists (X_out :: outs), st'. unfold fits in *. cbn [mapM].
  rewrite !run_bind, Hrun. cbn [ret]. rewrite run_bind, Hruns.
  cbn [self heap] in *.
  assert (heap st `prefix_of` heap st') as Hprefix'.
  { etrans; [|exact Hprefix]. by apply prefix_app_r. }
  split_and!; try done.
  constructor.
  - destruct Hout as (Hindex & Hnone & Hsome). split_and!; [done..|].
    intros Hne. destruct (Hsome Hne) as [Hkeys Hcols]. split; [done|].
    intros c s Hs. eapply column_at_prefix; [exact Hprefix|]. by apply Hcols.
  - eapply Forall2_impl; [exact Houts|].
    intros X' X_out' (Hindex & Hnone & Hsome). split_and!; [done..|].
    intros Hne. destruct (Hsome Hne) as [Hkeys Hcols]. split; [done|].
    intros c s Hs. apply Hcols.
    eapply column_at_prefix; [|exact Hs]. by apply prefix_app_r.
Qed.
End stateless.

Lemma C9_stateless_fits_witness :
  ∃ outs st',
    @fits stable_kind
      [{| index := [0; 1]%Z; columns := [("c", 0)] |};
       {| index := [0; 1; 2]%Z; columns := [("c", 1)] |}]
      {| self := example_generator false "count" None None;
         heap := [ObjectSeries [Some "b"; Some "a"];
                  ObjectSeries [Some "x"; Some "y"; Some "x"]] |}
    = (inr outs, st') ∧
    self st' = example_generator false "count" None None ∧
    category_map (self st') = None ∧
    [ObjectSeries [Some "b"; Some "a"];
     ObjectSeries [Some "x"; Some "y"; Some "x"]] `prefix_of` heap st' ∧
    Forall2 (coerced [ObjectSeries [Some "b"; Some "a"];
                      ObjectSeries [Some "x"; Some "y"; Some "x"]]
               (heap st') ["c"])
      [{| index := [0; 1]%Z; columns := [("c", 0)] |};
       {| index := [0; 1; 2]%Z; columns := [("c", 1)] |}]
      outs.
Proof.
  refine (@C9_stateless_fits stable_kind
            [{| index := [0; 1]%Z; columns := [("c", 0)] |};
             {| index := [0; 1; 2]%Z; columns := [("c", 1)] |}]
            {| self := example_generator false "count" None None;
               heap := [ObjectSeries [Some "b"; Some "a"];
                        ObjectSeries [Some "x"; Some "y"; Some "x"]] |}
            _ _ _);
    [reflexivity|reflexivity|by_compute].
Defined.

Section fit_then_transform.
Context `{SortValues}.

(** A stateful fit on a valid frame leaves the generator with a
    well-formed category map over the columns of the frame. *)
Lemma _fit_transform_fitted X st :
  _stateful_categories (self st) = true →
  features_in (self st) ≠ [] →
  fit_frame (self st) (heap st) X →
  ∃ X_out meta st' cmap,
    _fit_transform X st = (inr (X_out, meta), st') ∧
    category_map (self st') = Some cmap ∧
    wf_category_map cmap ∧
    features_in (self st') = features_in (self st) ∧
    Forall (λ column, column ∈ dict_keys (columns X)) (dict_keys cmap) ∧
    heap st `prefix_of` heap st'.
Proof.
  intros Hstateful Hfeatures Hframe. pose proof Hframe as [Hvalid _].
  destruct (_generate_category_map_spec X st Hfeatures Hframe)
    as (X_out & cmap & ext & Hrun & _ & Hkeys & Hout & Hcols).
  assert (∀ c voc, dict_get cmap c = Some voc →
            c ∈ dict_keys (columns X) ∧ NoDup voc) as Hentry.
  { intros c voc Hvoc.
    destruct (decide (c ∈ dict_keys (columns X))) as [Hc|Hc];
      [|rewrite (Hout c Hc) in Hvoc; done].
    split; [done|].
    destruct (dict_get_is_Some _ _ Hc) as [a Ha].
    destruct (valid_frame_lookup _ _ c a Hvalid) as (s & Hs & Hwf);
      [by apply dict_get_elem_of|].
    destruct (Hcols c s) as [Hvoc' _].
    { unfold column_at. by rewrite Ha. }
    rewrite Hvoc' in Hvoc. injection Hvoc as <-.
    apply vocabulary_NoDup, astype_category_wf, Hwf. }
  unfold _fit_transform. rewrite run_bind. cbn [get_self].
  rewrite Hstateful, !run_bind, Hrun. cbn [set_category_map].
  rewrite run_bind. cbn [get_self ret].
  eexists _, _, _, cmap. split; [done|]. cbn [self heap category_map features_in].
  split_and!; try done.
  - split; [done|]. apply Forall_forall. intros [c voc] Hin. cbn.
    eapply Hentry, dict_elem_of_get; done.
  - apply Forall_forall. intros c Hc.
    destruct (dict_get_is_Some _ _ Hc) as [voc Hvoc].
    by eapply Hentry.
  - by apply prefix_app_r.
Qed.
End fit_then_transform.

(** * Further properties of the methods *)

(** ** Fitting allocates and never overwrites *)

(** A computation that leaves the generator alone and only adds column
    objects to the heap, whether it returns or raises. *)
Definition allocating {A} (m : M A) : Prop :=
  ∀ st, self (m st).2 = self st ∧ heap st `prefix_of` heap (m st).2.

Lemma allocating_ret {A} (a : A) : allocating (ret a).
Proof. by intros st. Qed.

Lemma allocating_raise {A} e : allocating (@raise A e).
Proof. by intros st. Qed.

Lemma allocating_bind {A B} (m : M A) (k : A → M B) :
  allocating m → (∀ a, allocating (k a)) → allocating (m ≫= k).
Proof.
  intros Hm Hk st. rewrite run_bind. destruct (Hm st) as [Hself Hheap].
  destruct (m st) as [[e|a] st1]; [done|]. cbn [snd] in *.
  destruct (Hk a st1) as [Hself' Hheap']. split; [congruence|by etrans].
Qed.

Lemma allocating_get_self : allocating get_self.
Proof. by intros st. Qed.

Lemma allocating_load a : allocating (load a).
Proof. intros st. unfold load. by destruct (heap st !! a). Qed.

Lemma allocating_new_series s : allocating (new_series s).
Proof. intros st. split; [done|]. cbn. by apply prefix_app_r. Qed.

Lemma allocating_cat a : allocating (cat a).
Proof.
  apply allocating_bind; [apply allocating_load|].
  intros [?|?]; [apply allocating_raise|apply allocating_ret].
Qed.

Lemma allocating_CategoricalDtype l : allocating (CategoricalDtype l).
Proof.
  unfold CategoricalDtype.
  case_decide; [apply allocating_ret|apply allocating_raise].
Qed.

Lemma allocating_CategoricalDtype_counts l :
  allocating (CategoricalDtype_counts l).
Proof.
  unfold CategoricalDtype_counts.
  case_decide; [|apply allocating_raise].
  destruct l; [apply allocating_ret|apply allocating_raise].
Qed.

Lemma allocating_getitem X c : allocating (getitem X c).
Proof.
  unfold getitem.
  destruct (dict_get (columns X) c); [apply allocating_ret|apply allocating_raise].
Qed.

Lemma allocating_Series_astype a dtype : allocating (Series_astype a dtype).
Proof.
  apply allocating_bind; [apply allocating_load|].
  intros s. apply allocating_new_series.
Qed.

Lemma allocating_foldM {A B} (f : A → B → M A) a l :
  (∀ a b, allocating (f a b)) → allocating (foldM f a l).
Proof.
  intros Hf. revert a. induction l as [|b l IH]; intros a.
  - apply allocating_ret.
  - cbn [foldM]. apply allocating_bind; [apply Hf|apply IH].
Qed.

Lemma allocating_mapM {A B} (f : A → M B) l :
  (∀ a, allocating (f a)) → allocating (mapM f l).
Proof.
  intros Hf. induction l as [|a l IH].
  - apply allocating_ret.
  - cbn [mapM]. apply allocating_bind; [apply Hf|]. intros b.
    apply allocating_bind; [apply IH|]. intros bs. apply allocating_ret.
Qed.

Lemma allocating_DataFrame_astype_category X :
  allocating (DataFrame_astype_category X).
Proof.
  apply allocating_bind; [|intros; apply allocating_ret].
  apply allocating_mapM. intros [c a].
  apply allocating_bind; [apply allocating_load|]. intros s.
  apply allocating_bind; [apply allocating_new_series|]. intros a'.
  apply allocating_ret.
Qed.

Section fit_allocates.
Context `{SortValues}.

Lemma allocating_fit_column acc c : allocating (fit_column acc c).
Proof.
  destruct acc as [X_category category_map]. unfold fit_column.
  apply allocating_bind; [apply allocating_get_self|]. intros self.
  apply allocating_bind.
  - destruct (ranks self); [|case_decide; [|apply allocating_ret]];
      (apply allocating_bind; [apply allocating_getitem|]; intros a;
       apply allocating_bind; [apply allocating_cat|]; intros col;
       apply allocating_bind;
         [try (case_decide; [destruct (count_list self col)|]);
          first [apply allocating_CategoricalDtype
                |apply allocating_CategoricalDtype_counts]|];
       intros l;
       apply allocating_bind; [apply allocating_Series_astype|]; intros a';
       apply allocating_ret).
  - intros X'. apply allocating_bind; [apply allocating_getitem|]. intros a.
    apply allocating_bind; [apply allocating_cat|]. intros col.
    apply allocating_ret.
Qed.

Lemma allocating__generate_category_map X :
  allocating (_generate_category_map X).
Proof.
  unfold _generate_category_map.
  apply allocating_bind; [apply allocating_get_self|]. intros self.
  case_decide; [|apply allocating_ret].
  apply allocating_bind; [apply allocating_DataFrame_astype_category|].
  intros X_category. cbv zeta.
  apply allocating_bind.
  - apply allocating_foldM. intros ??. apply allocating_fit_column.
  - intros [??]. apply allocating_ret.
Qed.

Lemma _fit_transform_frame X st r st' :
  _fit_transform X st = (r, st') →
  heap st `prefix_of` heap st' ∧
  (self st' = self st ∨
   _stateful_categories (self st) = true ∧
   ∃ m, (set_category_map m st).2 = {| self := self st'; heap := heap st |}).
Proof.
  unfold _fit_transform. rewrite run_bind. cbn [get_self].
  destruct (_stateful_categories (self st)) eqn:Hstateful.
  - rewrite !run_bind.
    pose proof (allocating__generate_category_map X st) as Halloc.
    destruct (_generate_category_map X st) as [[e|[X_out cmap]] st1];
      cbn [snd] in Halloc; destruct Halloc as [Hself Hheap]; cbv beta iota.
    + intros [= <- <-]. split; [done|]. by left.
    + rewrite run_bind. cbn [set_category_map ret]. cbv beta iota zeta.
      rewrite run_bind. cbn [get_self ret]. intros [= <- <-].
      cbn [self heap]. split; [done|]. right. split; [done|].
      exists cmap. cbn [snd self heap]. by rewrite Hself.
  - rewrite run_bind. unfold _transform.
    destruct (_generate_features_category X st) as [r1 st1] eqn:Hrun.
    apply _generate_features_category_frame in Hrun as (Hself & Hheap & _).
    destruct r1 as [e|X_out].
    + intros [= <- <-]. split; [done|]. by left.
    + rewrite run_bind. cbn [get_self ret]. intros [= <- <-].
      split; [done|]. by left.
Qed.

(** X1: a fit, stateful or not, successful or not, overwrites no column
    object that existed before it, the training data among them, and
    leaves the generator's configuration, input features and metadata as
    they were: of the generator only [category_map] can differ afterwards,
    and not even that when the generator is not stateful. *)
Theorem X1_fit_transform_frame X st :
  heap st `prefix_of` heap (_fit_transform X st).2 ∧
  _stateful_categories (self (_fit_transform X st).2)
  = _stateful_categories (self st) ∧
  cat_order (self (_fit_transform X st).2) = cat_order (self st) ∧
  _minimum_cat_count (self (_fit_transform X st).2)
  = _minimum_cat_count (self st) ∧
  _maximum_num_cat (self (_fit_transform X st).2)
  = _maximum_num_cat (self st) ∧
  post_generators (self (_fit_transform X st).2) = post_generators (self st) ∧
  features_in (self (_fit_transform X st).2) = features_in (self st) ∧
  feature_metadata_in (self (_fit_transform X st).2)
  = feature_metadata_in (self st) ∧
  (if _stateful_categories (self st) then True
   else self (_fit_transform X st).2 = self st).
Proof.
  destruct (_fit_transform X st) as [r st'] eqn:Hrun. cbn [snd].
  apply _fit_transform_frame in Hrun as [Hheap [Hself|[Hstateful [m Hm]]]].
  - rewrite Hself. split_and!; try done. by destruct (_stateful_categories _).
  - rewrite Hstateful. cbn [set_category_map snd] in Hm.
    injection Hm as <-. by split_and!.
Qed.
End fit_allocates.

(** ** What a stateful fit records and returns *)

Lemma dict_keys_set_present {V} (d : dict V) k v :
  k ∈ dict_keys d → dict_keys (dict_set d k v) = dict_keys d.
Proof.
  unfold dict_keys. induction d as [|[k0 v0] d IH]; [by intros ?%elem_of_nil|].
  cbn [dict_set]. rewrite fmap_cons. cbn [fst]. case_decide as Hk.
  - intros _. rewrite fmap_cons. cbn [fst]. by subst.
  - intros [?|Hin]%elem_of_cons; [congruence|].
    rewrite fmap_cons. cbn [fst]. by rewrite IH.
Qed.

Lemma dict_keys_set_absent {V} (d : dict V) k v :
  k ∉ dict_keys d → dict_keys (dict_set d k v) = dict_keys d ++ [k].
Proof.
  unfold dict_keys. induction d as [|[k0 v0] d IH]; [done|].
  cbn [dict_set]. rewrite fmap_cons. cbn [fst].
  intros [Hne Hnin]%not_elem_of_cons. rewrite decide_False by done.
  rewrite fmap_cons. cbn [fst app]. by rewrite IH.
Qed.

Section fit_records.
Context `{SortValues}.

Lemma fit_columns_keys names X_category acc g h X_out acc' st' :
  NoDup names →
  (ranks g = true → "index" ∉ names) →
  (∀ c, c ∈ names → c ∉ dict_keys acc) →
  (∀ c, c ∈ names → ∃ a col,
     dict_get (columns X_category) c = Some a ∧
     h !! a = Some (CategorySeries col) ∧ NoDup (categories col)) →
  foldM fit_column (X_category, acc) names {| self := g; heap := h |}
  = (inr (X_out, acc'), st') →
  dict_keys (columns X_out) = dict_keys (columns X_category) ∧
  dict_keys acc' = dict_keys acc ++ names.
Proof.
  intros Hnames. revert X_category acc h.
  induction Hnames as [|c0 names Hc0 Hnames IH];
    intros Xc acc h Hlabel Hfresh Hcols.
  { intros [= <- <- <-]. by rewrite app_nil_r. }
  destruct (Hcols c0) as (a0 & col0 & Ha0 & Hcol0 & Hnd0); [by left|].
  cbn [foldM]. rewrite run_bind.
  rewrite (run_fit_column _ _ _ a0 col0); [| |done..].
  2:{ intros Hr ->. apply (Hlabel Hr). by left. }
  set (Xc1 := match new_categories g col0 with
              | Some _ => setitem Xc c0 (length h)
              | None => Xc
              end).
  set (h1 := match new_categories g col0 with
             | Some _ => h ++ [CategorySeries (recoded g col0)]
             | None => h
             end).
  assert (h `prefix_of` h1) as Hprefix.
  { unfold h1. destruct (new_categories g col0); [by apply prefix_app_r|done]. }
  assert (dict_keys (columns Xc1) = dict_keys (columns Xc)) as Hkeys1.
  { unfold Xc1. destruct (new_categories g col0); [|done].
    cbn [setitem columns]. apply dict_keys_set_present.
    by eapply dict_get_keys. }
  assert (∀ c, c ≠ c0 →
            dict_get (columns Xc1) c = dict_get (columns Xc) c) as Hother.
  { intros c Hc. unfold Xc1. destruct (new_categories g col0); [|done].
    cbn [setitem columns]. rewrite dict_get_set.
    by rewrite decide_False by done. }
  intros Hrun. apply IH in Hrun as [Hout Hacc].
  - split; [by rewrite Hout|].
    rewrite Hacc, dict_keys_set_absent by (apply Hfresh; by left).
    by rewrite <-app_assoc.
  - intros Hr Hin. apply (Hlabel Hr). by right.
  - intros c Hc. rewrite dict_keys_set_absent by (apply Hfresh; by left).
    apply not_elem_of_app. split; [apply Hfresh; by right|].
    intros ->%list_elem_of_singleton. done.
  - intros c Hc. destruct (Hcols c) as (a & col & Ha & Hcol & Hnd);
      [by right|].
    exists a, col. split_and!; [|by eapply prefix_lookup_Some|done].
    rewrite Hother; [done|]. by intros ->.
Qed.

Lemma set_categories_own col :
  wf_categorical col → set_categories (categories col) col = col.
Proof.
  intros [_ Hcells].
  destruct col as [cats vs]. unfold set_categories. cbn [categories values] in *.
  f_equal. induction Hcells as [|x vs Hx Hvs IH]; [done|].
  rewrite fmap_cons, IH. f_equal.
  destruct x as [v|]; [|done]. cbn in *. by rewrite decide_True.
Qed.

Lemma recoded_set_categories g col :
  wf_categorical col →
  recoded g col = set_categories (vocabulary g col) col.
Proof.
  intros Hwf. unfold vocabulary, recoded.
  destruct (new_categories g col) as [l|]; [|by rewrite set_categories_own].
  unfold astype_dtype. case_decide; [by rewrite set_categories_own|done].
Qed.

(** A stateful fit on a valid frame, in full: it succeeds, adds column
    objects to the heap, stores a well-formed map with one entry per
    column, in column order, and returns a frame over the same index and
    the same names whose columns are the inputs recoded against their
    vocabularies. *)
Lemma _fit_transform_stateful_spec X st :
  _stateful_categories (self st) = true →
  features_in (self st) ≠ [] →
  fit_frame (self st) (heap st) X →
  ∃ X_out meta cmap ext st',
    _fit_transform X st = (inr (X_out, meta), st') ∧
    heap st' = heap st ++ ext ∧
    category_map (self st') = Some cmap ∧
    features_in (self st') = features_in (self st) ∧
    wf_category_map cmap ∧
    dict_keys cmap = dict_keys (columns X) ∧
    index X_out = index X ∧
    dict_keys (columns X_out) = dict_keys (columns X) ∧
    ∀ c s, column_at (heap st) X c = Some s →
      dict_get cmap c = Some (vocabulary (self st) (astype_category s)) ∧
      column_at (heap st') X_out c
      = Some (CategorySeries
                (set_categories (vocabulary (self st) (astype_category s))
                   (astype_category s))).
Proof.
  intros Hstateful Hfeatures Hframe. pose proof Hframe as [Hvalid Hlabel].
  destruct (_generate_category_map_spec X st Hfeatures Hframe)
    as (X_out & cmap & ext & Hrun & Hindex & Hnodup & Hout & Hcols).
  assert (dict_keys (columns X_out) = dict_keys (columns X) ∧
          dict_keys cmap = dict_keys (columns X)) as [Hkeys_out Hkeys_map].
  { revert Hrun. unfold _generate_category_map. rewrite run_bind.
    cbn [get_self]. rewrite decide_True by done. rewrite run_bind.
    unfold DataFrame_astype_category. rewrite run_bind.
    destruct (copy_columns_spec (λ s, CategorySeries (astype_category s))
                (columns X) st)
      as (cols1 & ext1 & -> & Hkeys1 & Hsnd1 & Hlen1 & Hat1).
    { intros c a Hca.
      destruct (valid_frame_lookup _ _ _ _ Hvalid Hca) as (s & Hs & _).
      by eapply lookup_lt_Some. }
    cbn [ret columns]. cbv zeta. rewrite run_bind.
    destruct (foldM fit_column _ _ _) as [[e|[X_out' cmap']] st1] eqn:Hfold;
      [done|].
    cbn [ret]. intros [= -> -> _].
    apply fit_columns_keys in Hfold as [Hk1 Hk2].
    - cbn [columns] in *. rewrite Hk1, Hk2, Hkeys1. done.
    - rewrite Hkeys1. apply Hvalid.
    - by rewrite Hkeys1.
    - by intros ?? ?%elem_of_nil.
    - intros c Hc. rewrite Hkeys1 in Hc.
      destruct (dict_get_is_Some _ _ Hc) as [a Ha].
      destruct (valid_frame_lookup _ _ c a Hvalid) as (s & Hs & Hwf);
        [by apply dict_get_elem_of|].
      specialize (Hat1 c). rewrite Ha in Hat1. cbn in Hat1.
      rewrite Hs in Hat1. cbn [columns].
      destruct (dict_get cols1 c) as [a1|]; [|done].
      exists a1, (astype_category s). split_and!; [done..|].
      by apply astype_category_wf. }
  assert (∀ c voc, dict_get cmap c = Some voc → NoDup voc) as Hvocs.
  { intros c voc Hvoc.
    assert (c ∈ dict_keys (columns X)) as Hc
      by (rewrite <-Hkeys_map; by eapply dict_get_keys).
    destruct (dict_get_is_Some _ _ Hc) as [a Ha].
    destruct (valid_frame_lookup _ _ c a Hvalid) as (s & Hs & Hwf);
      [by apply dict_get_elem_of|].
    destruct (Hcols c s) as [Hvoc' _].
    { unfold column_at. by rewrite Ha. }
    rewrite Hvoc' in Hvoc. injection Hvoc as <-.
    apply vocabulary_NoDup, astype_category_wf, Hwf. }
  unfold _fit_transform. rewrite run_bind. cbn [get_self].
  rewrite Hstateful, !run_bind, Hrun. cbn [set_category_map].
  rewrite run_bind. cbn [get_self ret].
  eexists X_out, _, cmap, ext, _. split; [done|].
  cbn [self heap category_map features_in]. split_and!; try done.
  - split; [done|]. apply Forall_forall. intros [c voc] Hin. cbn.
    eapply Hvocs, dict_elem_of_get; done.
  - intros c s Hs. destruct (Hcols c s Hs) as [Hvoc Hat]. split; [done|].
    rewrite Hat. do 2 f_equal. apply recoded_set_categories.
    apply astype_category_wf. by eapply valid_frame_column.
Qed.
End fit_records.


Section vocabulary_content.
Context `{SortValues}.
Implicit Types (g : CategoryFeatureGenerator) (col : Categorical).

Lemma vocabulary_subseteq g col v :
  NoDup (categories col) → v ∈ vocabulary g col → v ∈ categories col.
Proof.
  intros Hnd. rewrite vocabulary_perm by done.
  destruct (new_categories g col) as [l|] eqn:Hl; [|done].
  cbn [default]. intros Hv. by eapply new_categories_subseteq.
Qed.


End vocabulary_content.

(** X2: a stateful fit on a valid frame, with no column labelled [index]
    where the frequency branch runs, succeeds, stores a category map with
    exactly one entry per column of the frame, in the order of the
    columns, and returns a frame over the same row index with the same
    column names. *)
Theorem X2_fit_records_every_column `{SortValues} X st :
  _stateful_categories (self st) = true →
  features_in (self st) ≠ [] →
  fit_frame (self st) (heap st) X →
  ∃ X_out meta st' cmap,
    _fit_transform X st = (inr (X_out, meta), st') ∧
    category_map (self st') = Some cmap ∧
    dict_keys cmap = dict_keys (columns X) ∧
    index X_out = index X ∧
    dict_keys (columns X_out) = dict_keys (columns X).
Proof.
  intros Hstateful Hfeatures Hfit.
  destruct (_fit_transform_stateful_spec X st Hstateful Hfeatures Hfit)
    as (X_out & meta & cmap & ext & st' & Hrun & _ & Hmap & _ & _ & Hkeys
        & Hindex & Hnames & _).
  by exists X_out, meta, st', cmap.
Qed.

Lemma X2_fit_records_every_column_witness :
  ∃ X_out meta st' cmap,
    @_fit_transform stable_kind
      {| index := [0; 1]%Z; columns := [("colour", 0); ("size", 1)] |}
      {| self := example_generator true "count" None None;
         heap := [ObjectSeries [Some "red"; Some "blue"];
                  ObjectSeries [Some "L"; Some "L"]] |}
    = (inr (X_out, meta), st') ∧
    category_map (self st') = Some cmap ∧
    dict_keys cmap = ["colour"; "size"] ∧
    index X_out = [0; 1]%Z ∧
    dict_keys (columns X_out) = ["colour"; "size"].
Proof.
  refine (@X2_fit_records_every_column stable_kind
            {| index := [0; 1]%Z; columns := [("colour", 0); ("size", 1)] |}
            {| self := example_generator true "count" None None;
               heap := [ObjectSeries [Some "red"; Some "blue"];
                        ObjectSeries [Some "L"; Some "L"]] |} _ _ _);
    [reflexivity|done|by_compute].
Defined.

(** X3: on a table with no column labelled [index] where the frequency
    branch runs, a fitted vocabulary holds no value twice and no value
    that is not a category of the coerced column; for an object column
    every value of the vocabulary occurs in the column. *)
Theorem X3_vocabulary_from_the_column `{SortValues} st X c s :
  _stateful_categories (self st) = true →
  c ∈ features_in (self st) →
  fit_frame (self st) (heap st) X →
  column_at (heap st) X c = Some s →
  ∃ voc, fitted_vocabulary X c st = Some voc ∧
    NoDup voc ∧
    (∀ v, v ∈ voc → v ∈ categories (astype_category s)) ∧
    (∀ vs, s = ObjectSeries vs → ∀ v, v ∈ voc → Some v ∈ vs).
Proof.
  intros Hstateful Hc Hframe Hs.
  pose proof Hframe as [Hvalid _].
  pose proof (astype_category_wf s (valid_frame_column _ _ _ _ Hvalid Hs))
    as [Hnd _].
  exists (vocabulary (self st) (astype_category s)).
  split; [by eapply fitted_vocabulary_spec, Hs;
            [|eapply features_in_nonempty|]|].
  split_and!.
  - by apply vocabulary_NoDup.
  - intros v. by apply vocabulary_subseteq.
  - intros vs -> v Hv. apply vocabulary_subseteq in Hv; [|done].
    by apply inferred_categories_elem.
Qed.

Lemma X3_vocabulary_from_the_column_witness :
  ∃ voc,
    @fitted_vocabulary stable_kind (example_frame ["b"; "a"; "b"]) "c"
      (example_state (example_generator true "count" None (Some 1%Z))
         ["b"; "a"; "b"])
    = Some voc ∧
    NoDup voc ∧
    (∀ v, v ∈ voc →
       v ∈ categories (astype_category (ObjectSeries (Some <$> ["b"; "a"; "b"])))) ∧
    (∀ vs, ObjectSeries (Some <$> ["b"; "a"; "b"]) = ObjectSeries vs →
       ∀ v, v ∈ voc → Some v ∈ vs).
Proof.
  refine (@X3_vocabulary_from_the_column stable_kind
            (example_state (example_generator true "count" None (Some 1%Z))
               ["b"; "a"; "b"])
            (example_frame ["b"; "a"; "b"]) "c"
            (ObjectSeries (Some <$> ["b"; "a"; "b"])) _ _ _ _);
    [reflexivity|by_compute|by_compute|reflexivity].
Defined.



Lemma slice_from_negative {A} (n : Z) (l : list A) :
  (n < 0)%Z → slice_from (- n) l = drop (Z.to_nat (- n)) l.
Proof.
  intros Hn. unfold slice_from.
  rewrite (proj2 (Z.ltb_ge _ _)) by lia.
  destruct (decide (- n ≤ Z.of_nat (length l))%Z) as [Hle|Hgt].
  - by rewrite Z.min_l by lia.
  - rewrite Z.min_r by lia. rewrite Nat2Z.id.
    by rewrite drop_all, drop_ge by lia.
Qed.

(** X5: on a table with no column labelled [index], with
    [maximum_num_cat=n], [n] at least one, the vocabulary holds at most
    [n] values, the last [n] of the ascending ranking that passed the
    minimum count; when no more than [n] values passed, it holds them all. *)
Theorem X5_maximum_num_cat_positive `{SortValues} st X c s n :
  _maximum_num_cat (self st) = Some n → (0 < n)%Z →
  _stateful_categories (self st) = true →
  c ∈ features_in (self st) →
  fit_frame (self st) (heap st) X →
  column_at (heap st) X c = Some s →
  ∃ voc survivors,
    fitted_vocabulary X c st = Some voc ∧
    survivors
    = at_least (_minimum_cat_count (self st)) (ranking (astype_category s)) ∧
    (Z.of_nat (length voc) ≤ n)%Z ∧
    voc ≡ₚ (drop (length survivors - Z.to_nat n) survivors).*1 ∧
    ((Z.of_nat (length survivors) ≤ n)%Z → voc ≡ₚ survivors.*1).
Proof.
  intros Hmax Hn Hstateful Hc Hframe Hs.
  pose proof Hframe as [Hvalid _].
  pose proof (astype_category_wf s (valid_frame_column _ _ _ _ Hvalid Hs))
    as [Hnd _].
  eexists (vocabulary (self st) (astype_category s)), _.
  split; [by eapply fitted_vocabulary_spec, Hs;
            [|eapply features_in_nonempty|]|].
  split; [done|].
  destruct (vocabulary_maximum_positive _ _ _ Hmax Hn Hnd) as [Hperm Hlen].
  split_and!; [done..|].
  intros Hall. rewrite Hperm.
  replace (length _ - Z.to_nat n) with 0 by lia. done.
Qed.

Lemma X5_maximum_num_cat_positive_witness :
  ∃ voc survivors,
    @fitted_vocabulary stable_kind
      (example_frame ["a"; "a"; "b"; "c"; "c"; "c"]) "c"
      (example_state (example_generator true "count" None (Some 2%Z))
         ["a"; "a"; "b"; "c"; "c"; "c"])
    = Some voc ∧
    survivors
    = at_least None
        (@ranking stable_kind
           (astype_category
              (ObjectSeries (Some <$> ["a"; "a"; "b"; "c"; "c"; "c"])))) ∧
    (Z.of_nat (length voc) ≤ 2)%Z ∧
    voc ≡ₚ (drop (length survivors - Z.to_nat 2) survivors).*1 ∧
    ((Z.of_nat (length survivors) ≤ 2)%Z → voc ≡ₚ survivors.*1).
Proof.
  refine (@X5_maximum_num_cat_positive stable_kind
            (example_state (example_generator true "count" None (Some 2%Z))
               ["a"; "a"; "b"; "c"; "c"; "c"])
            (example_frame ["a"; "a"; "b"; "c"; "c"; "c"]) "c"
            (ObjectSeries (Some <$> ["a"; "a"; "b"; "c"; "c"; "c"])) 2%Z
            _ _ _ _ _ _);
    [reflexivity|lia|reflexivity|by_compute|by_compute|reflexivity].
Defined.

(** X6: on a table with no column labelled [index], a negative
    [maximum_num_cat] raises nothing and is no maximum: the slice
    [rank[-n:]] then starts at position [-n], so the [-n] least frequent
    of the values that passed the minimum count are dropped and all the
    others are kept, however many they are. *)
Theorem X6_maximum_num_cat_negative `{SortValues} st X c s n :
  _maximum_num_cat (self st) = Some n → (n < 0)%Z →
  _stateful_categories (self st) = true →
  c ∈ features_in (self st) →
  fit_frame (self st) (heap st) X →
  column_at (heap st) X c = Some s →
  ∃ voc survivors,
    fitted_vocabulary X c st = Some voc ∧
    survivors
    = at_least (_minimum_cat_count (self st)) (ranking (astype_category s)) ∧
    voc ≡ₚ (drop (Z.to_nat (- n)) survivors).*1 ∧
    length voc = length survivors - Z.to_nat (- n).
Proof.
  intros Hmax Hn Hstateful Hc Hframe Hs.
  pose proof Hframe as [Hvalid _].
  pose proof (astype_category_wf s (valid_frame_column _ _ _ _ Hvalid Hs))
    as [Hnd _].
  eexists (vocabulary (self st) (astype_category s)), _.
  split; [by eapply fitted_vocabulary_spec, Hs;
            [|eapply features_in_nonempty|]|].
  split; [done|].
  assert (vocabulary (self st) (astype_category s)
          ≡ₚ (drop (Z.to_nat (- n))
                (at_least (_minimum_cat_count (self st))
                   (ranking (astype_category s)))).*1) as Hperm.
  { rewrite vocabulary_ranked
    by first [done|apply ranks_filtered; right; congruence].
    rewrite category_list_perm, rank_unfold, Hmax by done. cbn [at_most].
    by rewrite slice_from_negative. }
  split; [done|]. by rewrite Hperm, length_fmap, length_drop.
Qed.

Lemma X6_maximum_num_cat_negative_witness :
  ∃ voc survivors,
    @fitted_vocabulary stable_kind
      (example_frame ["a"; "a"; "b"; "c"; "c"; "c"]) "c"
      (example_state (example_generator true "count" None (Some (-1)%Z))
         ["a"; "a"; "b"; "c"; "c"; "c"])
    = Some voc ∧
    survivors
    = at_least None
        (@ranking stable_kind
           (astype_category
              (ObjectSeries (Some <$> ["a"; "a"; "b"; "c"; "c"; "c"])))) ∧
    voc ≡ₚ (drop (Z.to_nat (- (-1))) survivors).*1 ∧
    length voc = length survivors - Z.to_nat (- (-1)).
Proof.
  refine (@X6_maximum_num_cat_negative stable_kind
            (example_state (example_generator true "count" None (Some (-1)%Z))
               ["a"; "a"; "b"; "c"; "c"; "c"])
            (example_frame ["a"; "a"; "b"; "c"; "c"; "c"]) "c"
            (ObjectSeries (Some <$> ["a"; "a"; "b"; "c"; "c"; "c"])) (-1)%Z
            _ _ _ _ _ _);
    [reflexivity|lia|reflexivity|by_compute|by_compute|reflexivity].
Defined.

(** ** A fit followed by transforms *)

Lemma valid_frame_column_at h X c :
  valid_frame h X → c ∈ dict_keys (columns X) →
  ∃ s, column_at h X c = Some s ∧ wf_series s.
Proof.
  intros Hvalid Hc. destruct (dict_get_is_Some _ _ Hc) as [a Ha].
  destruct (valid_frame_lookup _ _ c a Hvalid) as (s & Hs & Hwf);
    [by apply dict_get_elem_of|].
  exists s. split; [|done]. unfold column_at. by rewrite Ha.
Qed.

(** X7: after a stateful fit on a training frame, transforming a frame
    that holds the training columns succeeds, and each such column comes
    out as a categorical whose categories are the vocabulary fitted on the
    training column and whose cells are the cells of the new column, those
    outside the vocabulary turned into the missing marker. *)
Theorem X7_fit_then_transform `{SortValues} X_train X_test st :
  _stateful_categories (self st) = true →
  features_in (self st) ≠ [] →
  fit_frame (self st) (heap st) X_train →
  valid_frame (heap st) X_test →
  Forall (λ c, c ∈ dict_keys (columns X_test)) (dict_keys (columns X_train)) →
  ∃ out_train meta st1 X_out st2,
    _fit_transform X_train st = (inr (out_train, meta), st1) ∧
    _transform X_test st1 = (inr X_out, st2) ∧
    ∀ c s_train s_test,
      column_at (heap st) X_train c = Some s_train →
      column_at (heap st) X_test c = Some s_test →
      fitted_vocabulary X_train c st
      = Some (vocabulary (self st) (astype_category s_train)) ∧
      column_at (heap st2) X_out c
      = Some (CategorySeries
                {| categories := vocabulary (self st) (astype_category s_train);
                   values :=
                     recode_cell (vocabulary (self st) (astype_category s_train))
                       <$> series_values s_test |}).
Proof.
  intros Hstateful Hfeatures Hframe Htest Hpresent.
  pose proof Hframe as [Htrain _].
  destruct (_fit_transform_stateful_spec X_train st Hstateful Hfeatures
              Hframe)
    as (out_train & meta & cmap & ext & st1 & Hfit & Hheap & Hmap & Hfeat
        & Hwf & Hkeys & _ & _ & Hcols).
  assert (heap st `prefix_of` heap st1) as Hprefix
    by (rewrite Hheap; by apply prefix_app_r).
  destruct (_generate_features_category_spec X_test st1 cmap)
    as (X_out & st2 & Hrun & _ & _ & Hout); try done.
  { by rewrite Hfeat. }
  { apply Hwf. }
  { intros ??. by eapply wf_category_map_NoDup. }
  { intros c Hc. rewrite Hkeys in Hc. rewrite Forall_forall in Hpresent.
    by apply Hpresent. }
  { intros c a Hca. apply (valid_frame_addresses _ X_test c a); [|done].
    by eapply valid_frame_prefix. }
  exists out_train, meta, st1, X_out, st2. split_and!; [done..|].
  intros c s_train s_test Hs_train Hs_test.
  destruct (Hcols c s_train Hs_train) as [Hvoc _].
  split; [by eapply fitted_vocabulary_spec|].
  rewrite (Hout c s_test) by by eapply column_at_prefix.
  rewrite Hvoc. unfold set_categories. by rewrite astype_category_values.
Qed.

Lemma X7_fit_then_transform_witness :
  ∃ out_train meta st1 X_out st2,
    @_fit_transform stable_kind
      {| index := [0; 1; 2]%Z; columns := [("c", 0)] |}
      {| self := example_generator true "count" None None;
         heap := [ObjectSeries [Some "a"; Some "b"; Some "b"];
                  ObjectSeries [Some "b"; Some "z"]] |}
    = (inr (out_train, meta), st1) ∧
    _transform {| index := [0; 1]%Z; columns := [("c", 1)] |} st1
    = (inr X_out, st2) ∧
    ∀ c s_train s_test,
      column_at [ObjectSeries [Some "a"; Some "b"; Some "b"];
                 ObjectSeries [Some "b"; Some "z"]]
        {| index := [0; 1; 2]%Z; columns := [("c", 0)] |} c = Some s_train →
      column_at [ObjectSeries [Some "a"; Some "b"; Some "b"];
                 ObjectSeries [Some "b"; Some "z"]]
        {| index := [0; 1]%Z; columns := [("c", 1)] |} c = Some s_test →
      @fitted_vocabulary stable_kind
        {| index := [0; 1; 2]%Z; columns := [("c", 0)] |} c
        {| self := example_generator true "count" None None;
           heap := [ObjectSeries [Some "a"; Some "b"; Some "b"];
                    ObjectSeries [Some "b"; Some "z"]] |}
      = Some (@vocabulary stable_kind (example_generator true "count" None None)
                (astype_category s_train)) ∧
      column_at (heap st2) X_out c
      = Some (CategorySeries
                {| categories :=
                     @vocabulary stable_kind
                       (example_generator true "count" None None)
                       (astype_category s_train);
                   values :=
                     recode_cell
                       (@vocabulary stable_kind
                          (example_generator true "count" None None)
                          (astype_category s_train))
                       <$> series_values s_test |}).
Proof.
  refine (@X7_fit_then_transform stable_kind
            {| index := [0; 1; 2]%Z; columns := [("c", 0)] |}
            {| index := [0; 1]%Z; columns := [("c", 1)] |}
            {| self := example_generator true "count" None None;
               heap := [ObjectSeries [Some "a"; Some "b"; Some "b"];
                        ObjectSeries [Some "b"; Some "z"]] |}
            _ _ _ _ _);
    [reflexivity|done|by_compute|by_compute|by_compute].
Defined.

Lemma recode_cell_among voc x : cell_among voc (recode_cell voc x).
Proof. destruct x as [v|]; [|done]. simpl. by case_decide. Qed.

Lemma recode_cell_idemp voc x :
  recode_cell voc (recode_cell voc x) = recode_cell voc x.
Proof.
  destruct x as [v|]; [|done]. simpl. case_decide; [|done].
  simpl. by rewrite decide_True.
Qed.

Lemma set_categories_wf voc c : NoDup voc → wf_categorical (set_categories voc c).
Proof.
  intros Hnd. split; [done|]. cbn [set_categories values categories].
  apply Forall_fmap, Forall_forall. intros x _. apply recode_cell_among.
Qed.

Lemma set_categories_idemp voc c :
  set_categories voc (set_categories voc c) = set_categories voc c.
Proof.
  unfold set_categories. cbn [values]. f_equal.
  rewrite <- list_fmap_compose. apply list_fmap_ext. intros _ x _.
  apply recode_cell_idemp.
Qed.

(** What a transform with a fitted map returns, with the validity of the
    returned frame in the new heap. *)
Lemma _transform_fitted_spec X st cmap :
  features_in (self st) ≠ [] →
  category_map (self st) = Some cmap →
  wf_category_map cmap →
  (∀ c, c ∈ dict_keys cmap → c ∈ dict_keys (columns X)) →
  valid_frame (heap st) X →
  ∃ X_out st',
    _transform X st = (inr X_out, st') ∧
    self st' = self st ∧
    index X_out = index X ∧
    dict_keys (columns X_out) = dict_keys (columns X) ∧
    valid_frame (heap st') X_out ∧
    ∀ c s, column_at (heap st) X c = Some s →
      column_at (heap st') X_out c
      = Some (CategorySeries
                match dict_get cmap c with
                | Some voc => set_categories voc (astype_category s)
                | None => astype_category s
                end).
Proof.
  intros Hfeatures Hmap Hwf Hpresent Hvalid.
  destruct (_generate_features_category_spec X st cmap)
    as (X_out & st' & Hrun & Hindex & Hkeys & Hcols); try done.
  { apply Hwf. }
  { intros ??. by eapply wf_category_map_NoDup. }
  { intros ??. by apply valid_frame_addresses. }
  exists X_out, st'.
  destruct (_generate_features_category_frame _ _ _ _ Hrun) as (Hself & _ & _).
  split_and!; try done.
  assert (NoDup (dict_keys (columns X_out))) as Hnd
    by (rewrite Hkeys; apply Hvalid).
  split; [done|]. apply Forall_forall. intros [c a] Hca.
  assert (c ∈ dict_keys (columns X)) as Hc.
  { rewrite <- Hkeys. apply list_elem_of_fmap. by exists (c, a). }
  destruct (valid_frame_column_at _ _ _ Hvalid Hc) as (s & Hs & Hwfs).
  specialize (Hcols c s Hs). unfold column_at in Hcols.
  rewrite (dict_elem_of_get _ _ _ Hnd Hca) in Hcols.
  unfold wf_column_at. cbn [snd bind option_bind mbind] in *.
  rewrite Hcols. cbn [wf_series].
  destruct (dict_get cmap c) as [voc|] eqn:Hvoc.
  - apply set_categories_wf. by eapply wf_category_map_NoDup.
  - by apply astype_category_wf.
Qed.

(** X8: the frame a stateful fit returns is the frame a transform of the
    same table returns right after it: same rows, same column names, and
    under each name a column with the same categories and cells. *)
Theorem X8_fit_output_is_transform `{SortValues} X st :
  _stateful_categories (self st) = true →
  features_in (self st) ≠ [] →
  fit_frame (self st) (heap st) X →
  ∃ X_fit meta st1 X_out st2,
    _fit_transform X st = (inr (X_fit, meta), st1) ∧
    _transform X st1 = (inr X_out, st2) ∧
    index X_out = index X_fit ∧
    dict_keys (columns X_out) = dict_keys (columns X_fit) ∧
    ∀ c, c ∈ dict_keys (columns X) →
      is_Some (column_at (heap st1) X_fit c) ∧
      column_at (heap st2) X_out c = column_at (heap st1) X_fit c.
Proof.
  intros Hstateful Hfeatures Hframe. pose proof Hframe as [Hvalid _].
  destruct (_fit_transform_stateful_spec X st Hstateful Hfeatures Hframe)
    as (X_fit & meta & cmap & ext & st1 & Hfit & Hheap & Hmap & Hfeat
        & Hwf & Hkeys & Hindex & Hnames & Hcols).
  assert (heap st `prefix_of` heap st1) as Hprefix
    by (rewrite Hheap; by apply prefix_app_r).
  destruct (_transform_fitted_spec X st1 cmap)
    as (X_out & st2 & Hrun & _ & Hindex' & Hnames' & _ & Hout); try done.
  { by rewrite Hfeat. }
  { intros c. by rewrite Hkeys. }
  { by eapply valid_frame_prefix. }
  exists X_fit, meta, st1, X_out, st2.
  split_and!; [done|done|congruence|congruence|].
  intros c Hc.
  destruct (valid_frame_column_at _ _ _ Hvalid Hc) as (s & Hs & _).
  destruct (Hcols c s Hs) as [Hvoc Hcol].
  split; [by rewrite Hcol|].
  rewrite (Hout c s) by by eapply column_at_prefix.
  by rewrite Hvoc, Hcol.
Qed.

Lemma X8_fit_output_is_transform_witness :
  ∃ X_fit meta st1 X_out st2,
    @_fit_transform stable_kind (example_frame ["b"; "a"; "b"; "c"])
      (example_state (example_generator true "count" (Some 2%Z) None)
         ["b"; "a"; "b"; "c"])
    = (inr (X_fit, meta), st1) ∧
    _transform (example_frame ["b"; "a"; "b"; "c"]) st1 = (inr X_out, st2) ∧
    index X_out = index X_fit ∧
    dict_keys (columns X_out) = dict_keys (columns X_fit) ∧
    ∀ c, c ∈ dict_keys (columns (example_frame ["b"; "a"; "b"; "c"])) →
      is_Some (column_at (heap st1) X_fit c) ∧
      column_at (heap st2) X_out c = column_at (heap st1) X_fit c.
Proof.
  refine (@X8_fit_output_is_transform stable_kind
            (example_frame ["b"; "a"; "b"; "c"])
            (example_state (example_generator true "count" (Some 2%Z) None)
               ["b"; "a"; "b"; "c"]) _ _ _);
    [reflexivity|done|by_compute].
Defined.

(** X9: transforming is idempotent on the data.  With a fitted map whose
    columns the table holds, the transform of the transform's own output
    succeeds and returns columns with the same categories and the same
    cells as that output. *)
Theorem X9_transform_idempotent X st cmap :
  features_in (self st) ≠ [] →
  category_map (self st) = Some cmap →
  wf_category_map cmap →
  Forall (λ column, column ∈ dict_keys (columns X)) (dict_keys cmap) →
  valid_frame (heap st) X →
  ∃ X1 st1 X2 st2,
    _transform X st = (inr X1, st1) ∧
    _transform X1 st1 = (inr X2, st2) ∧
    index X2 = index X1 ∧
    dict_keys (columns X2) = dict_keys (columns X1) ∧
    ∀ c, c ∈ dict_keys (columns X) →
      is_Some (column_at (heap st1) X1 c) ∧
      column_at (heap st2) X2 c = column_at (heap st1) X1 c.
Proof.
  intros Hfeatures Hmap Hwf Hpresent Hvalid. rewrite Forall_forall in Hpresent.
  destruct (_transform_fitted_spec X st cmap)
    as (X1 & st1 & Hrun1 & Hself & Hindex1 & Hnames1 & Hvalid1 & Hout1);
    try done.
  destruct (_transform_fitted_spec X1 st1 cmap)
    as (X2 & st2 & Hrun2 & _ & Hindex2 & Hnames2 & _ & Hout2); try done.
  { by rewrite Hself. }
  { by rewrite Hself. }
  { intros c Hc. rewrite Hnames1. by apply Hpresent. }
  exists X1, st1, X2, st2. split_and!; try done.
  intros c Hc.
  destruct (valid_frame_column_at _ _ _ Hvalid Hc) as (s & Hs & _).
  pose proof (Hout1 c s Hs) as Hcol1. split; [by rewrite Hcol1|].
  rewrite (Hout2 c _ Hcol1), Hcol1. cbn [astype_category].
  destruct (dict_get cmap c); [|done]. by rewrite set_categories_idemp.
Qed.

Lemma X9_transform_idempotent_witness :
  ∃ X1 st1 X2 st2,
    _transform (example_frame ["b"; "z"; "a"])
      {| self :=
           {| _stateful_categories := true; cat_order := "original";
              _minimum_cat_count := None; _maximum_num_cat := None;
              category_map := Some [("c", ["a"; "b"])];
              post_generators := []; features_in := ["c"];
              feature_metadata_in :=
                {| type_group_map_raw := [("object", ["c"])];
                   type_group_map_special := [] |} |};
         heap := [ObjectSeries [Some "b"; Some "z"; Some "a"]] |}
    = (inr X1, st1) ∧
    _transform X1 st1 = (inr X2, st2) ∧
    index X2 = index X1 ∧
    dict_keys (columns X2) = dict_keys (columns X1) ∧
    ∀ c, c ∈ dict_keys (columns (example_frame ["b"; "z"; "a"])) →
      is_Some (column_at (heap st1) X1 c) ∧
      column_at (heap st2) X2 c = column_at (heap st1) X1 c.
Proof.
  refine (X9_transform_idempotent (example_frame ["b"; "z"; "a"])
            {| self :=
                 {| _stateful_categories := true; cat_order := "original";
                    _minimum_cat_count := None; _maximum_num_cat := None;
                    category_map := Some [("c", ["a"; "b"])];
                    post_generators := []; features_in := ["c"];
                    feature_metadata_in :=
                      {| type_group_map_raw := [("object", ["c"])];
                         type_group_map_special := [] |} |};
               heap := [ObjectSeries [Some "b"; Some "z"; Some "a"]] |}
            [("c", ["a"; "b"])] _ _ _ _ _);
    [done|reflexivity|by_compute|by_compute|by_compute].
Defined.

(** ** What a transform and a fit do at the edges *)

Lemma foldM_app {A B} (f : A → B → M A) a l1 l2 st :
  foldM f a (l1 ++ l2) st
  = match foldM f a l1 st with
    | (inr a', st') => foldM f a' l2 st'
    | (inl e, st') => (inl e, st')
    end.
Proof.
  revert a st. induction l1 as [|b l1 IH]; intros a st; [done|].
  cbn [app foldM]. rewrite !run_bind.
  destruct (f a b st) as [[e|a'] st']; [done|]. apply IH.
Qed.

Lemma dict_get_None {V} (d : dict V) k :
  k ∉ dict_keys d → dict_get d k = None.
Proof.
  intros Hk. destruct (dict_get d k) as [v|] eqn:Hget; [|done].
  by apply dict_get_keys in Hget.
Qed.

(** X10: when the fitted map names a column the table does not hold, the
    transform raises [KeyError] for the first such column of the map (the
    columns before it are recoded on the copy first); the generator and
    the column objects of the caller are left as they were. *)
Theorem X10_transform_missing_column X st cmap pre c post :
  features_in (self st) ≠ [] →
  category_map (self st) = Some cmap →
  wf_category_map cmap →
  dict_keys cmap = pre ++ c :: post →
  Forall (λ column, column ∈ dict_keys (columns X)) pre →
  c ∉ dict_keys (columns X) →
  valid_frame (heap st) X →
  ∃ st',
    _transform X st = (inl (KeyError c), st') ∧
    self st' = self st ∧ heap st `prefix_of` heap st'.
Proof.
  intros Hfeatures Hmap Hwf Hkeys Hpre Hc Hvalid.
  assert (∃ st', _transform X st = (inl (KeyError c), st')) as [st' Hrun].
  { unfold _transform, _generate_features_category.
    rewrite run_bind. cbn [get_self].
    rewrite decide_True by done. rewrite run_bind.
    unfold DataFrame_astype_category. rewrite run_bind.
    destruct (copy_columns_spec (λ s, CategorySeries (astype_category s))
                (columns X) st)
      as (cols1 & ext1 & -> & Hkeys1 & Hsnd1 & Hlen1 & Hat1).
    { intros ??. by apply valid_frame_addresses. }
    cbn [ret]. rewrite Hmap, run_bind. unfold deepcopy. rewrite run_bind.
    cbn [columns index].
    destruct (copy_columns_spec id cols1
                {| self := self st; heap := heap st ++ ext1 |})
      as (cols2 & ext2 & -> & Hkeys2 & Hsnd2 & Hlen2 & Hat2).
    { intros c' a Hca. cbn [heap]. rewrite length_app, Hlen1.
      assert (a ∈ cols1.*2) as Ha.
      { apply list_elem_of_fmap. by exists (c', a). }
      rewrite Hsnd1 in Ha. apply elem_of_seq in Ha. lia. }
    cbn [ret self heap] in *. rewrite run_bind.
    set (X2 := {| index := index X; columns := cols2 |}).
    set (h2 := (heap st ++ ext1) ++ ext2) in *.
    rewrite Hkeys, foldM_app.
    assert (NoDup (pre ++ c :: post)) as Hnd by (rewrite <- Hkeys; apply Hwf).
    destruct (recode_columns_spec X2 cmap pre (self st) h2)
      as (h' & -> & _).
    { by apply NoDup_app in Hnd as (? & _ & _). }
    { cbn [X2 columns]. rewrite Hsnd2. apply NoDup_seq. }
    { intros c' Hc'. rewrite Forall_forall in Hpre.
      destruct (valid_frame_column_at _ _ _ Hvalid (Hpre c' Hc'))
        as (s & Hs & _).
      specialize (Hat2 c'). rewrite Hat1 in Hat2.
      unfold column_at in Hs. rewrite Hs in Hat2. cbn in Hat2.
      destruct (dict_get cols2 c') as [a2|] eqn:Ha2; [|done].
      assert (c' ∈ dict_keys cmap) as Hin.
      { rewrite Hkeys. apply elem_of_app. by left. }
      destruct (dict_get_is_Some _ _ Hin) as [voc Hvoc].
      exists a2, (astype_category s), voc. split_and!; try done.
      by eapply wf_category_map_NoDup. }
    cbn [foldM]. rewrite run_bind. unfold recode_column. rewrite run_bind.
    unfold getitem. rewrite dict_get_None; [by eexists|].
    cbn [X2 columns]. unfold dict_keys in *. by rewrite Hkeys2, Hkeys1. }
  exists st'. split; [done|].
  destruct (_generate_features_category_frame _ _ _ _ Hrun) as (? & ? & _).
  done.
Qed.

Lemma X10_transform_missing_column_witness :
  ∃ st',
    _transform (example_frame ["a"; "b"])
      {| self :=
           {| _stateful_categories := true; cat_order := "original";
              _minimum_cat_count := None; _maximum_num_cat := None;
              category_map := Some [("c", ["a"; "b"]); ("d", ["x"])];
              post_generators := []; features_in := ["c"; "d"];
              feature_metadata_in :=
                {| type_group_map_raw := [("object", ["c"; "d"])];
                   type_group_map_special := [] |} |};
         heap := [ObjectSeries [Some "a"; Some "b"]] |}
    = (inl (KeyError "d"), st') ∧
    self st'
    = {| _stateful_categories := true; cat_order := "original";
         _minimum_cat_count := None; _maximum_num_cat := None;
         category_map := Some [("c", ["a"; "b"]); ("d", ["x"])];
         post_generators := []; features_in := ["c"; "d"];
         feature_metadata_in :=
           {| type_group_map_raw := [("object", ["c"; "d"])];
              type_group_map_special := [] |} |} ∧
    [ObjectSeries [Some "a"; Some "b"]] `prefix_of` heap st'.
Proof.
  refine (X10_transform_missing_column (example_frame ["a"; "b"])
            {| self :=
                 {| _stateful_categories := true; cat_order := "original";
                    _minimum_cat_count := None; _maximum_num_cat := None;
                    category_map := Some [("c", ["a"; "b"]); ("d", ["x"])];
                    post_generators := []; features_in := ["c"; "d"];
                    feature_metadata_in :=
                      {| type_group_map_raw := [("object", ["c"; "d"])];
                         type_group_map_special := [] |} |};
               heap := [ObjectSeries [Some "a"; Some "b"]] |}
            [("c", ["a"; "b"]); ("d", ["x"])] ["c"] "d" [] _ _ _ _ _ _ _);
    [done|reflexivity|by_compute|reflexivity|by_compute|by_compute
    |by_compute].
Defined.

(** X11: a stateful fit of a generator that has no input features needs
    nothing of the table: it returns the frame with the table's rows and
    no column, creates no column object, and leaves the generator without
    a category map, also when an earlier fit had recorded one; every
    transform after it returns the rows of its table and no column. *)
Theorem X11_fit_without_features `{SortValues} X st :
  _stateful_categories (self st) = true →
  features_in (self st) = [] →
  ∃ meta st',
    _fit_transform X st = (inr (DataFrame_of_index X, meta), st') ∧
    heap st' = heap st ∧
    category_map (self st') = None ∧
    ∀ X', _transform X' st' = (inr (DataFrame_of_index X'), st').
Proof.
  intros Hstateful Hfeatures.
  unfold _fit_transform. rewrite run_bind. cbn [get_self]. rewrite Hstateful.
  rewrite !run_bind. unfold _generate_category_map.
  rewrite run_bind. cbn [get_self].
  rewrite decide_False by (by rewrite Hfeatures; intros ?).
  cbn [ret set_category_map get_self self heap feature_metadata_in].
  eexists _, _. split; [reflexivity|]. split_and!; [done..|].
  intros X'. unfold _transform, _generate_features_category.
  rewrite run_bind. cbn [get_self self features_in].
  rewrite decide_False by (by rewrite Hfeatures; intros ?). done.
Qed.

Lemma X11_fit_without_features_witness :
  ∃ meta st',
    @_fit_transform stable_kind (example_frame ["a"; "b"])
      {| self :=
           {| _stateful_categories := true; cat_order := "original";
              _minimum_cat_count := None; _maximum_num_cat := None;
              category_map := Some [("c", ["a"; "b"])];
              post_generators := []; features_in := [];
              feature_metadata_in :=
                {| type_group_map_raw := [];
                   type_group_map_special := [] |} |};
         heap := [ObjectSeries [Some "a"; Some "b"]] |}
    = (inr (DataFrame_of_index (example_frame ["a"; "b"]), meta), st') ∧
    heap st' = [ObjectSeries [Some "a"; Some "b"]] ∧
    category_map (self st') = None ∧
    ∀ X', _transform X' st' = (inr (DataFrame_of_index X'), st').
Proof.
  refine (@X11_fit_without_features stable_kind (example_frame ["a"; "b"])
            {| self :=
                 {| _stateful_categories := true; cat_order := "original";
                    _minimum_cat_count := None; _maximum_num_cat := None;
                    category_map := Some [("c", ["a"; "b"])];
                    post_generators := []; features_in := [];
                    feature_metadata_in :=
                      {| type_group_map_raw := [];
                         type_group_map_special := [] |} |};
               heap := [ObjectSeries [Some "a"; Some "b"]] |} _ _);
    reflexivity.
Defined.

(** ** The cells of the fitted frame *)

Section fitted_cells.
Context `{SortValues}.


Lemma elem_of_vocabulary_minimum g col k v :
  _minimum_cat_count g = Some k → _maximum_num_cat g = None →
  NoDup (categories col) →
  v ∈ vocabulary g col ↔
  v ∈ categories col ∧ (k ≤ Z.of_nat (frequency v (values col)))%Z.
Proof.
  intros Hmin Hmax Hnd.
  rewrite vocabulary_ranked
    by first [done|apply ranks_filtered; left; congruence].
  rewrite category_list_perm, rank_unfold, Hmin, Hmax by done.
  cbn [at_least at_most]. rewrite list_elem_of_fmap. split.
  - intros (p & -> & [Hk Hp%elem_of_ranking]%list_elem_of_filter).
    destruct Hp as [Hp1 Hp2]. split; [done|]. by rewrite <- Hp2.
  - intros [Hv Hk]. exists (v, frequency v (values col)). split; [done|].
    apply list_elem_of_filter. split; [done|]. by apply elem_of_ranking.
Qed.


(** X13: on a table with no column labelled [index], with
    [minimum_cat_count=k], [k] above one, and no maximum, a cell
    of the fitted frame holds the value of the input cell when that value
    occurs at least [k] times in the column, and the missing marker
    otherwise: the rare values are blanked in the training data too. *)
Theorem X13_rare_values_become_missing X st c s k :
  _minimum_cat_count (self st) = Some k → (1 < k)%Z →
  _maximum_num_cat (self st) = None →
  _stateful_categories (self st) = true →
  c ∈ features_in (self st) →
  fit_frame (self st) (heap st) X →
  column_at (heap st) X c = Some s →
  ∃ X_out meta st' out,
    _fit_transform X st = (inr (X_out, meta), st') ∧
    column_at (heap st') X_out c = Some (CategorySeries out) ∧
    values out
    = (λ x : cell,
         match x with
         | Some v =>
             if decide (k ≤ Z.of_nat (frequency v (series_values s)))%Z
             then Some v else None
         | None => None
         end) <$> series_values s.
Proof.
  intros Hmin Hk Hmax Hstateful Hc Hframe Hs.
  pose proof Hframe as [Hvalid _].
  destruct (_fit_transform_stateful_spec X st Hstateful
              (features_in_nonempty _ _ Hc) Hframe)
    as (X_out & meta & cmap & ext & st' & Hfit & _ & _ & _ & _ & _ & _ & _
        & Hcols).
  destruct (Hcols c s Hs) as [_ Hcol].
  eexists X_out, meta, st', _. split_and!; [done..|].
  pose proof (astype_category_wf s (valid_frame_column _ _ _ _ Hvalid Hs))
    as Hwf.
  cbn [set_categories values]. rewrite <- !astype_category_values.
  apply list_fmap_ext. intros i [v|] Hi; [|done]. cbn [recode_cell].
  apply list_elem_of_lookup_2 in Hi.
  pose proof (elem_of_vocabulary_minimum (self st) (astype_category s) k v
                Hmin Hmax (proj1 Hwf)) as Hiff.
  destruct (decide (v ∈ vocabulary (self st) (astype_category s)))
    as [Hv|Hv]; case_decide as Hfreq; try done.
  - destruct Hfreq. by apply Hiff.
  - destruct Hv. apply Hiff. split; [|done]. by apply wf_categorical_elem.
Qed.
End fitted_cells.


Lemma X13_rare_values_become_missing_witness :
  ∃ X_out meta st' out,
    @_fit_transform stable_kind (example_frame ["b"; "a"; "b"])
      (example_state (example_generator true "original" (Some 2%Z) None)
         ["b"; "a"; "b"])
    = (inr (X_out, meta), st') ∧
    column_at (heap st') X_out "c" = Some (CategorySeries out) ∧
    values out
    = (λ x : cell,
         match x with
         | Some v =>
             if decide (2 ≤ Z.of_nat
                              (frequency v
                                 (series_values
                                    (ObjectSeries
                                       (Some <$> ["b"; "a"; "b"])))))%Z
             then Some v else None
         | None => None
         end) <$> series_values (ObjectSeries (Some <$> ["b"; "a"; "b"])).
Proof.
  refine (@X13_rare_values_become_missing stable_kind
            (example_frame ["b"; "a"; "b"])
            (example_state (example_generator true "original" (Some 2%Z) None)
               ["b"; "a"; "b"]) "c"
            (ObjectSeries (Some <$> ["b"; "a"; "b"])) 2%Z _ _ _ _ _ _ _);
    [reflexivity|lia|reflexivity|reflexivity|by_compute|by_compute
    |reflexivity].
Defined.

(** ** The constructor and the feature metadata *)

(** X14: the constructor drops a minimum count of one or less: the
    generator it builds then holds no minimum count and is the generator
    built with [minimum_cat_count=None]; a minimum count the generator
    holds is above one.  So the frequency-ranking branch of the fit runs
    exactly for [cat_order='count'], a minimum count above one or a
    maximum number of categories. *)
Theorem X14_init_minimum_cat_count super_init stateful_categories
    minimize_memory order minimum_cat_count maximum_num_cat g :
  __init__ super_init stateful_categories minimize_memory order
    minimum_cat_count maximum_num_cat = inr g →
  (∀ k, _minimum_cat_count g = Some k ↔
        minimum_cat_count = Some k ∧ (1 < k)%Z) ∧
  ((∀ k, minimum_cat_count = Some k → (k ≤ 1)%Z) →
   __init__ super_init stateful_categories minimize_memory order
     None maximum_num_cat = inr g) ∧
  (ranks g = true ↔
   order = "count" ∨ (∃ k, minimum_cat_count = Some k ∧ (1 < k)%Z)
   ∨ maximum_num_cat ≠ None).
Proof.
  unfold __init__. case_decide as Horder; [done|]. intros [= <-].
  cbn [_minimum_cat_count]. split_and!.
  - intros k. destruct minimum_cat_count as [k'|];
      [destruct (Z.leb_spec k' 1)|].
    + split; [done|]. intros [[= ->] ?]. lia.
    + split; [by intros [= ->]|by intros [? _]].
    + split; [done|by intros [? _]].
  - intros Hsmall. destruct minimum_cat_count as [k'|]; [|done].
    by rewrite (proj2 (Z.leb_le k' 1)) by by apply Hsmall.
  - unfold ranks. cbn [cat_order _minimum_cat_count _maximum_num_cat].
    rewrite !orb_true_iff, !bool_decide_eq_true.
    destruct minimum_cat_count as [k'|];
      [destruct (Z.leb_spec k' 1)|].
    + split; [intros [[?|?]|?]; auto; done|].
      intros [?|[(k & [= ->] & ?)|?]]; auto; lia.
    + split; [intros [[?|_]|?]; eauto|].
      intros [?|[_|?]]; auto.
    + split; [intros [[?|?]|?]; auto; done|].
      intros [?|[(k & ? & _)|?]]; auto; done.
Qed.

Lemma X14_init_minimum_cat_count_witness :
  (∀ k, _minimum_cat_count (example_generator true "original" None None)
        = Some k ↔ Some 1%Z = Some k ∧ (1 < k)%Z) ∧
  ((∀ k, Some 1%Z = Some k → (k ≤ 1)%Z) →
   __init__
     {| base_post_generators := []; base_features_in := ["c"];
        base_feature_metadata_in :=
          {| type_group_map_raw := [("object", ["c"])];
             type_group_map_special := [] |} |}
     true true "original" None None
   = inr (example_generator true "original" None None)) ∧
  (ranks (example_generator true "original" None None) = true ↔
   "original" = "count" ∨ (∃ k, Some 1%Z = Some k ∧ (1 < k)%Z)
   ∨ @None Z ≠ None).
Proof.
  refine (X14_init_minimum_cat_count
            {| base_post_generators := []; base_features_in := ["c"];
               base_feature_metadata_in :=
                 {| type_group_map_raw := [("object", ["c"])];
                    type_group_map_special := [] |} |}
            true true "original" (Some 1%Z) None
            (example_generator true "original" None None) _).
  reflexivity.
Defined.

(** X15: the inferred input features are the object features followed by
    the category features, in their order, without those tagged
    [datetime_as_object]; when no feature carries that tag they are all
    kept. *)
Theorem X15_infer_features_in g :
  let raw := type_group_map_raw (feature_metadata_in g) in
  let excluded :=
    group (type_group_map_special (feature_metadata_in g))
      "datetime_as_object" in
  _infer_features_in g `sublist_of` group raw "object" ++ group raw "category" ∧
  (∀ f, f ∈ _infer_features_in g ↔
        (f ∈ group raw "object" ∨ f ∈ group raw "category")
        ∧ (f ∉ excluded)) ∧
  ((∀ f, f ∈ excluded →
         (f ∉ group raw "object") ∧ (f ∉ group raw "category")) →
   _infer_features_in g = group raw "object" ++ group raw "category").
Proof.
  intros raw excluded. unfold _infer_features_in. fold raw excluded.
  split_and!.
  - apply sublist_filter.
  - intros f. rewrite list_elem_of_filter, elem_of_app. tauto.
  - intros Hnone. apply filter_all. intros f Hf Hex.
    apply elem_of_app in Hf. destruct (Hnone f Hex). tauto.
Qed.

Lemma dict_get_pop_ne {V} (d : dict V) k k' :
  k' ≠ k → dict_get (dict_pop d k) k' = dict_get d k'.
Proof.
  intros Hne. induction d as [|[k0 v0] d IH]; [done|].
  cbn [dict_pop dict_get]. destruct (decide (k0 = k)) as [->|Hk0].
  - by rewrite (decide_False (P := k = k')) by done.
  - cbn [dict_get]. by rewrite IH.
Qed.

Lemma dict_keys_pop {V} (d : dict V) k :
  NoDup (dict_keys d) → k ∉ dict_keys (dict_pop d k).
Proof.
  unfold dict_keys. induction d as [|[k0 v0] d IH]; [intros _; apply not_elem_of_nil|].
  rewrite fmap_cons. intros [Hk0 Hnd]%NoDup_cons. cbn [dict_pop fst] in *.
  case_decide as Hk; [by subst|]. rewrite fmap_cons, not_elem_of_cons.
  split; [done|by apply IH].
Qed.

Lemma dict_keys_pop_subseteq {V} (d : dict V) k k' :
  k' ∈ dict_keys (dict_pop d k) → k' ∈ dict_keys d.
Proof.
  unfold dict_keys. induction d as [|[k0 v0] d IH]; [done|].
  cbn [dict_pop]. case_decide.
  - rewrite fmap_cons. intros ?. apply elem_of_cons. by right.
  - rewrite !fmap_cons, !elem_of_cons. intros [?|?]; [by left|].
    right. by apply IH.
Qed.

Section metadata.
Context `{SortValues}.

(** The special groups a fit returns, read off the generator. *)
Lemma _fit_transform_metadata X st X_out meta st' :
  _fit_transform X st = (inr (X_out, meta), st') →
  let special := type_group_map_special (feature_metadata_in (self st)) in
  feature_metadata_in (self st') = feature_metadata_in (self st) ∧
  meta
  = if decide ("text" ∈ dict_keys special) then
      dict_set (dict_pop special "text") "text_as_category"
        (group (dict_pop special "text") "text_as_category"
         ++ filter (λ feature,
                      feature ∉ group (dict_pop special "text")
                                  "text_as_category")
              (group special "text"))
    else special.
Proof.
  intros Hrun special.
  assert (feature_metadata_in (self st') = feature_metadata_in (self st))
    as Hmeta.
  { destruct (_fit_transform_frame _ _ _ _ Hrun) as [_ [->|(_ & m & Hm)]];
      [done|].
    unfold set_category_map in Hm. cbn [snd] in Hm.
    injection Hm as Hm. by rewrite <- Hm. }
  split; [done|]. subst special. rewrite <- Hmeta.
  unfold _fit_transform in Hrun. rewrite run_bind in Hrun.
  cbn [get_self] in Hrun. rewrite run_bind in Hrun.
  match type of Hrun with
  | context [match ?m st with _ => _ end] =>
      destruct (m st) as [[e|X1] st1]; [done|]
  end.
  rewrite run_bind in Hrun. cbn [get_self ret] in Hrun.
  by injection Hrun as _ <- <-.
Qed.

(** X16: the special groups a fit returns are those of the input metadata
    with every [text] feature moved to [text_as_category]: the [text]
    group is gone, [text_as_category] holds what it held followed by the
    text features it did not hold, the other groups are as they were, and
    the metadata the generator holds is not changed.  Without a [text]
    group the groups are returned as they are. *)
Theorem X16_text_becomes_text_as_category X st :
  let special := type_group_map_special (feature_metadata_in (self st)) in
  NoDup (dict_keys special) →
  (_stateful_categories (self st) = true → features_in (self st) ≠ []) →
  (_stateful_categories (self st) = false → category_map (self st) = None) →
  fit_frame (self st) (heap st) X →
  ∃ X_out meta st',
    _fit_transform X st = (inr (X_out, meta), st') ∧
    feature_metadata_in (self st') = feature_metadata_in (self st) ∧
    (("text" ∉ dict_keys special) → meta = special) ∧
    ("text" ∈ dict_keys special →
     ("text" ∉ dict_keys meta) ∧
     group meta "text_as_category"
     = group special "text_as_category"
       ++ filter (λ feature, feature ∉ group special "text_as_category")
            (group special "text") ∧
     (∀ f, f ∈ group meta "text_as_category" ↔
           f ∈ group special "text_as_category" ∨ f ∈ group special "text") ∧
     ∀ k, k ≠ "text" → k ≠ "text_as_category" →
       dict_get meta k = dict_get special k).
Proof.
  intros special Hnd Hstateful Hstateless Hframe. pose proof Hframe as [Hvalid _].
  assert (∃ X_out meta st', _fit_transform X st = (inr (X_out, meta), st'))
    as (X_out & meta & st' & Hrun).
  { destruct (_stateful_categories (self st)) eqn:Hmode.
    - destruct (_fit_transform_fitted X st Hmode (Hstateful eq_refl) Hframe)
        as (X_out & meta & st' & _ & Hrun & _).
      by exists X_out, meta, st'.
    - destruct (stateless_fit_transform_spec X st Hmode
                  (Hstateless eq_refl) Hvalid)
        as (X_out & meta & ext & Hrun & _).
      by eexists X_out, meta, _. }
  exists X_out, meta, st'. split; [done|].
  destruct (_fit_transform_metadata _ _ _ _ _ Hrun) as [Hin Hmeta].
  fold special in Hmeta. split; [done|]. split.
  { intros Htext. by rewrite decide_False in Hmeta. }
  intros Htext. rewrite decide_True in Hmeta by done.
  assert (group (dict_pop special "text") "text_as_category"
          = group special "text_as_category") as Hgroup.
  { unfold group. by rewrite dict_get_pop_ne. }
  rewrite Hgroup in Hmeta.
  assert (group meta "text_as_category"
          = group special "text_as_category"
            ++ filter (λ feature, feature ∉ group special "text_as_category")
                 (group special "text")) as Hnew.
  { unfold group at 1. rewrite Hmeta, dict_get_set.
    by rewrite decide_True. }
  split_and!.
  - rewrite Hmeta. intros Hin'.
    destruct (decide ("text_as_category" ∈ dict_keys (dict_pop special "text")))
      as [Hp|Hp].
    + rewrite dict_keys_set_present in Hin' by done.
      by apply dict_keys_pop in Hin'.
    + rewrite dict_keys_set_absent in Hin' by done.
      apply elem_of_app in Hin' as [Hin'|Hin'%list_elem_of_singleton];
        [by apply dict_keys_pop in Hin'|done].
  - done.
  - intros f. rewrite Hnew, elem_of_app, list_elem_of_filter.
    destruct (decide (f ∈ group special "text_as_category")); tauto.
  - intros k Hk1 Hk2. rewrite Hmeta, dict_get_set.
    rewrite decide_False by done. by apply dict_get_pop_ne.
Qed.
End metadata.

Lemma X16_text_becomes_text_as_category_witness :
  let st :=
    {| self :=
         {| _stateful_categories := true; cat_order := "original";
            _minimum_cat_count := None; _maximum_num_cat := None;
            category_map := None;
            post_generators := []; features_in := ["c"];
            feature_metadata_in :=
              {| type_group_map_raw := [("object", ["c"])];
                 type_group_map_special :=
                   [("text", ["c"; "d"]); ("text_as_category", ["d"])] |} |};
       heap := [ObjectSeries [Some "a"; Some "b"]] |} in
  let special := [("text", ["c"; "d"]); ("text_as_category", ["d"])] in
  ∃ X_out meta st',
    @_fit_transform stable_kind (example_frame ["a"; "b"]) st
    = (inr (X_out, meta), st') ∧
    feature_metadata_in (self st') = feature_metadata_in (self st) ∧
    (("text" ∉ dict_keys special) → meta = special) ∧
    ("text" ∈ dict_keys special →
     ("text" ∉ dict_keys meta) ∧
     group meta "text_as_category"
     = group special "text_as_category"
       ++ filter (λ feature, feature ∉ group special "text_as_category")
            (group special "text") ∧
     (∀ f, f ∈ group meta "text_as_category" ↔
           f ∈ group special "text_as_category" ∨ f ∈ group special "text") ∧
     ∀ k, k ≠ "text" → k ≠ "text_as_category" →
       dict_get meta k = dict_get special k).
Proof.
  refine (@X16_text_becomes_text_as_category stable_kind
            (example_frame ["a"; "b"])
            {| self :=
                 {| _stateful_categories := true; cat_order := "original";
                    _minimum_cat_count := None; _maximum_num_cat := None;
                    category_map := None;
                    post_generators := []; features_in := ["c"];
                    feature_metadata_in :=
                      {| type_group_map_raw := [("object", ["c"])];
                         type_group_map_special :=
                           [("text", ["c"; "d"]);
                            ("text_as_category", ["d"])] |} |};
               heap := [ObjectSeries [Some "a"; Some "b"]] |} _ _ _ _);
    [by_compute|done|done|by_compute].
Defined.

(** ** The fitted frame is made of new column objects *)

Lemma bind_inr {A B} (m : M A) (k : A → M B) st b st' :
  (m ≫= k) st = (inr b, st') →
  ∃ a st1, m st = (inr a, st1) ∧ k a st1 = (inr b, st').
Proof. rewrite run_bind. destruct (m st) as [[e|a] st1]; [done|]. eauto. Qed.

Lemma getitem_inr X c st a st' :
  getitem X c st = (inr a, st') →
  st' = st ∧ dict_get (columns X) c = Some a.
Proof.
  unfold getitem. destruct (dict_get (columns X) c); [|done].
  by intros [= -> ->].
Qed.

Lemma cat_inr a st col st' : cat a st = (inr col, st') → st' = st.
Proof.
  unfold cat. intros (s & st1 & Hload & Hret)%bind_inr.
  unfold load in Hload. destruct (heap st !! a); [|done].
  injection Hload as -> ->. destruct s; [done|]. by injection Hret as _ ->.
Qed.

Lemma CategoricalDtype_inr l st d st' :
  CategoricalDtype l st = (inr d, st') → st' = st.
Proof. unfold CategoricalDtype. case_decide; [|done]. by intros [= _ ->]. Qed.

Lemma CategoricalDtype_counts_inr l st d st' :
  CategoricalDtype_counts l st = (inr d, st') → st' = st.
Proof.
  unfold CategoricalDtype_counts. case_decide; [|done].
  destruct l; [|done]. by intros [= _ ->].
Qed.

Lemma Series_astype_inr a dtype st a' st' :
  Series_astype a dtype st = (inr a', st') →
  a' = length (heap st) ∧ length (heap st') = S (length (heap st)).
Proof.
  unfold Series_astype. intros (s & st1 & Hload & Hnew)%bind_inr.
  unfold load in Hload. destruct (heap st !! a); [|done].
  injection Hload as -> ->. unfold new_series in Hnew.
  injection Hnew as <- <-. cbn [heap]. rewrite length_app. cbn. lia.
Qed.

Lemma elem_of_dict_set {V} (d : dict V) k v p :
  p ∈ dict_set d k v → p ∈ d ∨ p = (k, v).
Proof.
  induction d as [|[k0 v0] d IH]; cbn [dict_set].
  - intros ?%list_elem_of_singleton. by right.
  - case_decide.
    + intros [->|?]%elem_of_cons; [by right|]. left. apply elem_of_cons. by right.
    + intros [->|?]%elem_of_cons; [left; apply elem_of_cons; by left|].
      destruct IH as [?|?]; [done| |by right]. left. apply elem_of_cons. by right.
Qed.

Lemma dict_set_snd_NoDup {V} (d : dict V) k v :
  NoDup d.*2 → v ∉ d.*2 → NoDup (dict_set d k v).*2.
Proof.
  induction d as [|[k0 v0] d IH]; cbn [dict_set].
  - intros _ _. apply NoDup_singleton.
  - rewrite fmap_cons. cbn [snd].
    intros [Hv0 Hnd]%NoDup_cons [Hne Hv]%not_elem_of_cons. case_decide.
    + rewrite fmap_cons. by apply NoDup_cons.
    + rewrite fmap_cons. apply NoDup_cons. split; [|by apply IH].
      cbn [snd]. intros ([k1 v1] & Heq & Hin)%list_elem_of_fmap.
      cbn [snd] in Heq. subst v1.
      apply elem_of_dict_set in Hin as [Hin|[= _ ->]]; [|done].
      destruct Hv0. apply list_elem_of_fmap. by exists (k1, v0).
Qed.

(** The columns of a frame are objects of their own, created after the
    heap had [n] objects. *)
Definition fresh_frame (n : nat) (h : list Series) (X : DataFrame) : Prop :=
  NoDup (columns X).*2 ∧ ∀ c a, (c, a) ∈ columns X → n ≤ a < length h.

Lemma fresh_frame_seq m n k h X :
  (columns X).*2 = seq n k → m ≤ n → n + k ≤ length h → fresh_frame m h X.
Proof.
  intros Hsnd Hm Hk. split; [rewrite Hsnd; apply NoDup_seq|].
  intros c a Hca. assert (a ∈ (columns X).*2) as Ha.
  { apply list_elem_of_fmap. by exists (c, a). }
  rewrite Hsnd in Ha. apply elem_of_seq in Ha. lia.
Qed.

Section fit_fresh.
Context `{SortValues}.

Lemma fresh_frame_setitem n st st' X c a :
  fresh_frame n (heap st) X →
  a = length (heap st) → length (heap st') = S (length (heap st)) →
  n ≤ length (heap st) →
  fresh_frame n (heap st') (setitem X c a).
Proof.
  intros [Hnd Hin] -> Hlen Hn. split; cbn [setitem columns].
  - apply dict_set_snd_NoDup; [done|].
    intros ([c' a'] & Heq & Hca)%list_elem_of_fmap. cbn [snd] in Heq. subst a'.
    apply Hin in Hca. lia.
  - intros c' a' [Hca|[= -> ->]]%elem_of_dict_set; [|lia].
    apply Hin in Hca. lia.
Qed.

Lemma fit_column_fresh n X_category acc c st X' acc' st' :
  fresh_frame n (heap st) X_category → n ≤ length (heap st) →
  fit_column (X_category, acc) c st = (inr (X', acc'), st') →
  fresh_frame n (heap st') X' ∧ n ≤ length (heap st').
Proof.
  intros Hfresh Hn. unfold fit_column.
  intros (g & st0 & [= <- <-] & Hrun)%bind_inr.
  apply bind_inr in Hrun as (X1 & st1 & Hinner & Hrest).
  apply bind_inr in Hrest as (a & st2 & [-> _]%getitem_inr & Hrest).
  apply bind_inr in Hrest as (col & st3 & ->%cat_inr & [= <- _ <-]).
  assert (∀ dtype_of : Categorical → M (list string),
            (∀ X_column st dtype st',
               dtype_of X_column st = (inr dtype, st') → st' = st) →
            (series ← getitem X_category c;
             X_column ← cat series;
             dtype ← dtype_of X_column;
             series ← Series_astype series dtype;
             ret (setitem X_category c series)) st = (inr X1, st1) →
            fresh_frame n (heap st1) X1 ∧ n ≤ length (heap st1)) as Hbranch.
  { intros dtype_of Hpure (a1 & st2 & [-> _]%getitem_inr & Hrun)%bind_inr.
    apply bind_inr in Hrun as (col1 & st3 & ->%cat_inr & Hrun).
    apply bind_inr in Hrun as (dtype & st4 & ->%Hpure & Hrun).
    apply bind_inr in Hrun
        as (a2 & st5 & [-> Hlen]%Series_astype_inr & [= <- <-]).
    split; [by eapply fresh_frame_setitem|lia]. }
  destruct (ranks (self st)).
  - eapply Hbranch; [|exact Hinner]. intros X_column st2 dtype st3.
    case_decide; [destruct (count_list (self st) X_column)|].
    + apply CategoricalDtype_inr.
    + apply CategoricalDtype_counts_inr.
    + apply CategoricalDtype_inr.
  - case_decide; [|by injection Hinner as <- <-].
    eapply Hbranch; [|exact Hinner]. intros X_column st2 dtype st3.
    apply CategoricalDtype_inr.
Qed.

Lemma fit_columns_fresh n names X_category acc st X' acc' st' :
  fresh_frame n (heap st) X_category → n ≤ length (heap st) →
  foldM fit_column (X_category, acc) names st = (inr (X', acc'), st') →
  fresh_frame n (heap st') X'.
Proof.
  revert X_category acc st. induction names as [|c names IH];
    intros X_category acc st Hfresh Hn; cbn [foldM].
  - by intros [= <- _ <-].
  - intros ([X1 acc1] & st1 & Hstep & Hrest)%bind_inr.
    destruct (fit_column_fresh _ _ _ _ _ _ _ _ Hfresh Hn Hstep).
    by eapply IH.
Qed.

Lemma fresh_frame_of_index n h X : fresh_frame n h (DataFrame_of_index X).
Proof.
  split; cbn [DataFrame_of_index columns]; [apply NoDup_nil_2|].
  by intros ?? ?%elem_of_nil.
Qed.

(** X17: the frame a fit returns shares no column object with the table
    it was given nor with anything that existed before: each of its
    columns is an object created during the fit, and no two of its columns
    are the same object.  What later works on the returned frame in place
    cannot reach the training data. *)
Theorem X17_fit_returns_new_objects X st X_out meta st' :
  _fit_transform X st = (inr (X_out, meta), st') →
  NoDup (columns X_out).*2 ∧
  ∀ c a, (c, a) ∈ columns X_out →
    length (heap st) ≤ a < length (heap st').
Proof.
  unfold _fit_transform. intros (g & st0 & [= <- <-] & Hrun)%bind_inr.
  apply bind_inr in Hrun as (X1 & st1 & Hinner & Hrest).
  apply bind_inr in Hrest as (g1 & st2 & [= <- <-] & [= <- _ <-]).
  change (fresh_frame (length (heap st)) (heap st1) X1).
  destruct (_stateful_categories (self st)).
  - apply bind_inr in Hinner as ([X2 m] & st2 & Hmap & Hinner).
    apply bind_inr in Hinner as ([] & st3 & [= <-] & [= <- <-]).
    cbn [heap]. unfold _generate_category_map in Hmap.
    apply bind_inr in Hmap as (g1 & st3 & [= <- <-] & Hmap).
    case_decide; [|injection Hmap as <- _ <-; apply fresh_frame_of_index].
    apply bind_inr in Hmap as (X3 & st3 & Hcopy & Hmap).
    apply bind_inr in Hmap as ([X4 m4] & st4 & Hfold & [= <- _ <-]).
    unfold DataFrame_astype_category in Hcopy.
    destruct (run_copy_frame _ _ _ _ _ Hcopy) as (ext & -> & Hnew).
    destruct (Hnew X3 eq_refl) as (_ & Hsnd & Hlen).
    eapply fit_columns_fresh; [| |exact Hfold]; cbn [heap].
    + eapply fresh_frame_seq; [exact Hsnd|done|]. rewrite length_app. lia.
    + rewrite length_app. lia.
  - unfold _transform, _generate_features_category in Hinner.
    apply bind_inr in Hinner as (g1 & st3 & [= <- <-] & Hinner).
    case_decide; [|injection Hinner as <- <-; apply fresh_frame_of_index].
    apply bind_inr in Hinner as (X3 & st3 & Hcopy & Hinner).
    unfold DataFrame_astype_category in Hcopy.
    destruct (run_copy_frame _ _ _ _ _ Hcopy) as (ext & -> & Hnew).
    destruct (Hnew X3 eq_refl) as (_ & Hsnd & Hlen).
    destruct (category_map (self st)) as [cmap|].
    + apply bind_inr in Hinner as (X4 & st4 & Hcopy2 & Hinner).
      apply bind_inr in Hinner as ([] & st5 & Hfold & [= <- <-]).
      unfold deepcopy in Hcopy2.
      destruct (run_copy_frame _ _ _ _ _ Hcopy2) as (ext2 & -> & Hnew2).
      destruct (Hnew2 X4 eq_refl) as (_ & Hsnd2 & Hlen2).
      destruct (recode_columns_frame X4 cmap _ 0 _ _ _
                  ltac:(intros; lia) Hfold) as (_ & Hlen5 & _).
      eapply fresh_frame_seq; [exact Hsnd2| |]; cbn [heap] in *;
        rewrite ?Hlen5, !length_app; lia.
    + injection Hinner as <- <-.
      eapply fresh_frame_seq; [exact Hsnd|done|]. cbn [heap].
      rewrite length_app. lia.
Qed.
End fit_fresh.

Lemma X17_fit_returns_new_objects_witness :
  NoDup (columns {| index := [0; 1; 2]%Z; columns := [("c", 1)] |}).*2 ∧
  ∀ c a, (c, a) ∈ columns {| index := [0; 1; 2]%Z; columns := [("c", 1)] |} →
    length (heap (example_state (example_generator true "original" None None)
                    ["b"; "a"; "b"]))
    ≤ a < length [ObjectSeries (Some <$> ["b"; "a"; "b"]);
                  CategorySeries
                    {| categories := ["a"; "b"];
                       values := Some <$> ["b"; "a"; "b"] |}].
Proof.
  refine (@X17_fit_returns_new_objects stable_kind
            (example_frame ["b"; "a"; "b"])
            (example_state (example_generator true "original" None None)
               ["b"; "a"; "b"])
            {| index := [0; 1; 2]%Z; columns := [("c", 1)] |} []
            {| self :=
                 {| _stateful_categories := true; cat_order := "original";
                    _minimum_cat_count := None; _maximum_num_cat := None;
                    category_map := Some [("c", ["a"; "b"])];
                    post_generators :=
                      [CategoryMemoryMinimizeFeatureGenerator true];
                    features_in := ["c"];
                    feature_metadata_in :=
                      {| type_group_map_raw := [("object", ["c"])];
                         type_group_map_special := [] |} |};
               heap := [ObjectSeries (Some <$> ["b"; "a"; "b"]);
                        CategorySeries
                          {| categories := ["a"; "b"];
                             values := Some <$> ["b"; "a"; "b"] |}] |} _).
  vm_compute. reflexivity.
Defined.
